(** * Twitter-to-Telegram monitor: a shallow embedding of [main.py]

    The Python program is embedded function by function.  Python values are
    modelled by the type [pyval] of JSON-like data, a Python [dict] by an
    association list in insertion order, and every function that can raise
    or that touches the configuration, the network, the clock or the log by
    a computation of the state-and-exception monad [M] over the record
    [world].  The outcomes of the outside world (HTTP responses, Telegram
    deliveries, file writes) are read from the oracles of the record [env]. *)

From Stdlib Require Import ZArith String Ascii List Bool Lia Sorted Permutation.
From Stdlib Require Import DecimalString.
Import ListNotations.
Open Scope string_scope.
Open Scope list_scope.

(** ** Python values *)

(** The values that [json.load] produces and that the program passes
    around.  Floating-point numbers are left out: no function of the
    program computes with them. *)
#[warnings="-register-all"]
Inductive pyval : Type :=
| PNone
| PBool (b : bool)
| PInt (z : Z)
| PStr (s : string)
| PList (l : list pyval)
| PDict (d : list (string * pyval)).

(** A [dict] with string keys, in insertion order. *)
Definition pydict : Type := list (string * pyval).

(** The subclasses of [Exception] that the modelled operations raise. *)
Inductive exn : Type :=
| KeyError
| TypeError
| AttributeError
| ValueError
| OSError
| ClientError
| TelegramError.

Inductive result (A : Type) : Type :=
| Ok (a : A)
| Raise (e : exn).
Arguments Ok {A} a.
Arguments Raise {A} e.

(** *** Dictionaries *)

(** [d.get(k)] *)
Fixpoint dict_get (k : string) (d : pydict) : option pyval :=
  match d with
  | [] => None
  | (k', v) :: r => if String.eqb k k' then Some v else dict_get k r
  end.

(** [d[k] = v]: an existing key keeps its position, a new key goes last. *)
Fixpoint dict_set (k : string) (v : pyval) (d : pydict) : pydict :=
  match d with
  | [] => [(k, v)]
  | (k', v') :: r =>
      if String.eqb k k' then (k', v) :: r else (k', v') :: dict_set k v r
  end.

(** [{**a, **b}] *)
Definition dict_merge (a b : pydict) : pydict :=
  fold_left (fun d kv => dict_set (fst kv) (snd kv) d) b a.

(** [d.get(k, default)] *)
Definition dict_get_default (k : string) (default : pyval) (d : pydict) : pyval :=
  match dict_get k d with
  | Some v => v
  | None => default
  end.

(** *** Strings

    A character of the model is a code point below 256. *)

Definition is_upper (c : ascii) : bool :=
  let n := nat_of_ascii c in
  ((65 <=? n) && (n <=? 90))%nat
  || ((192 <=? n) && (n <=? 222) && negb (n =? 215))%nat.

Definition lower_char (c : ascii) : ascii :=
  if is_upper c then ascii_of_nat (nat_of_ascii c + 32) else c.

(** [s.lower()] *)
Fixpoint str_lower (s : string) : string :=
  match s with
  | EmptyString => EmptyString
  | String c r => String (lower_char c) (str_lower r)
  end.

(** The white space that [int] strips from both ends of a string. *)
Definition is_space (c : ascii) : bool :=
  let n := nat_of_ascii c in
  ((9 <=? n) && (n <=? 13))%nat || (n =? 32)%nat
  || (n =? 133)%nat || (n =? 160)%nat.

Definition is_digit (c : ascii) : bool :=
  let n := nat_of_ascii c in ((48 <=? n) && (n <=? 57))%nat.

Definition digit_val (c : ascii) : Z := Z.of_nat (nat_of_ascii c - 48).

Fixpoint lstrip (s : string) : string :=
  match s with
  | EmptyString => EmptyString
  | String c r => if is_space c then lstrip r else s
  end.

Fixpoint rstrip (s : string) : string :=
  match s with
  | EmptyString => EmptyString
  | String c r =>
      match rstrip r with
      | EmptyString => if is_space c then EmptyString else String c EmptyString
      | r' => String c r'
      end
  end.

(** Decimal digits, single underscores allowed between two digits.
    [prev] says that the previous character was a digit. *)
Fixpoint parse_digits (acc : Z) (prev : bool) (s : string) : option Z :=
  match s with
  | EmptyString => if prev then Some acc else None
  | String c r =>
      if is_digit c then parse_digits (10 * acc + digit_val c) true r
      else if Ascii.eqb c "_"%char
           then (if prev then parse_digits acc false r else None)
           else None
  end.

(** [int(s)] for a string, base 10 (the limit that recent interpreters put
    on the number of digits is not modelled). *)
Definition int_of_string (s : string) : option Z :=
  match rstrip (lstrip s) with
  | String "-"%char r => option_map Z.opp (parse_digits 0 false r)
  | String "+"%char r => parse_digits 0 false r
  | r => parse_digits 0 false r
  end.

(** *** Dynamic operations *)

(** [int(v)] *)
Definition py_int (v : pyval) : result Z :=
  match v with
  | PInt z => Ok z
  | PBool b => Ok (if b then 1%Z else 0%Z)
  | PStr s =>
      match int_of_string s with
      | Some z => Ok z
      | None => Raise ValueError
      end
  | PNone | PList _ | PDict _ => Raise TypeError
  end.

(** [bool(v)] *)
Definition py_truthy (v : pyval) : bool :=
  match v with
  | PNone => false
  | PBool b => b
  | PInt z => negb (z =? 0)%Z
  | PStr s => negb (String.eqb s EmptyString)
  | PList l => match l with [] => false | _ => true end
  | PDict d => match d with [] => false | _ => true end
  end.

(** [v[k]] for a string key [k] *)
Definition py_getitem (v : pyval) (k : string) : result pyval :=
  match v with
  | PDict d =>
      match dict_get k d with
      | Some x => Ok x
      | None => Raise KeyError
      end
  | _ => Raise TypeError
  end.

(** [v.lower()] *)
Definition py_lower (v : pyval) : result string :=
  match v with
  | PStr s => Ok (str_lower s)
  | _ => Raise AttributeError
  end.

Fixpoint chars (s : string) : list pyval :=
  match s with
  | EmptyString => []
  | String c r => PStr (String c EmptyString) :: chars r
  end.

(** The elements that [for x in v] visits. *)
Definition py_iter (v : pyval) : result (list pyval) :=
  match v with
  | PList l => Ok l
  | PDict d => Ok (map (fun kv => PStr (fst kv)) d)
  | PStr s => Ok (chars s)
  | PNone | PBool _ | PInt _ => Raise TypeError
  end.

(** [len(v)] *)
Definition py_len (v : pyval) : result nat :=
  match v with
  | PList l => Ok (List.length l)
  | PDict d => Ok (List.length d)
  | PStr s => Ok (String.length s)
  | PNone | PBool _ | PInt _ => Raise TypeError
  end.

(** *** Serialisation: [json.dumps(v, indent=2)] *)

Section Json.
Local Open Scope string_scope.

Definition hex_digit (n : nat) : ascii :=
  if (n <? 10)%nat then ascii_of_nat (48 + n) else ascii_of_nat (87 + n).

Definition backslash : ascii := ascii_of_nat 92.
Definition dquote : ascii := ascii_of_nat 34.

Definition escape (c : ascii) : string := String backslash (String c EmptyString).

(** One character inside a JSON string, with [ensure_ascii] on. *)
Definition json_escape_char (c : ascii) : string :=
  let n := nat_of_ascii c in
  if (n =? 34)%nat then escape dquote
  else if (n =? 92)%nat then escape backslash
  else if (n =? 10)%nat then escape "n"
  else if (n =? 13)%nat then escape "r"
  else if (n =? 9)%nat then escape "t"
  else if (n =? 8)%nat then escape "b"
  else if (n =? 12)%nat then escape "f"
  else if ((32 <=? n) && (n <=? 126))%nat then String c EmptyString
  else escape "u" ++ "00"
       ++ String (hex_digit (n / 16)) (String (hex_digit (n mod 16)) EmptyString).

Fixpoint json_escape (s : string) : string :=
  match s with
  | EmptyString => EmptyString
  | String c r => json_escape_char c ++ json_escape r
  end.

Definition json_string (s : string) : string :=
  String dquote (json_escape s ++ String dquote EmptyString).

Definition string_of_Z (z : Z) : string := NilZero.string_of_int (Z.to_int z).

Fixpoint spaces (n : nat) : string :=
  match n with
  | O => EmptyString
  | S k => String " " (spaces k)
  end.

(** A line break followed by the indentation of nesting depth [level]. *)
Definition newline_indent (level : nat) : string :=
  String (ascii_of_nat 10) (spaces (2 * level)).

Fixpoint json_encode (level : nat) (v : pyval) : string :=
  match v with
  | PNone => "null"
  | PBool true => "true"
  | PBool false => "false"
  | PInt z => string_of_Z z
  | PStr s => json_string s
  | PList [] => "[]"
  | PList l =>
      "[" ++ newline_indent (S level)
      ++ (fix items (l : list pyval) : string :=
            match l with
            | [] => EmptyString
            | x :: r =>
                json_encode (S level) x
                ++ match r with
                   | [] => EmptyString
                   | _ => "," ++ newline_indent (S level) ++ items r
                   end
            end) l
      ++ newline_indent level ++ "]"
  | PDict [] => "{}"
  | PDict d =>
      "{" ++ newline_indent (S level)
      ++ (fix items (d : list (string * pyval)) : string :=
            match d with
            | [] => EmptyString
            | (k, x) :: r =>
                json_string k ++ ": " ++ json_encode (S level) x
                ++ match r with
                   | [] => EmptyString
                   | _ => "," ++ newline_indent (S level) ++ items r
                   end
            end) d
      ++ newline_indent level ++ "}"
  end.

Definition json_dumps (v : pyval) : string := json_encode 0 v.

End Json.

(** ** The world and the monad *)

(** The [TwitterAccount] dataclass. *)
Record TwitterAccount : Type := mkTwitterAccount {
  username : pyval;
  user_id : pyval;
  last_tweet_id : pyval
}.

(** What [send_tweet_to_telegram] hands to [send_message]: the Markdown
    text is a function of these values (handle, text, time stamp and the
    permalink built from handle and id); its layout is not modelled. *)
Record message : Type := mkMessage {
  msg_chat_id : string;
  msg_username : pyval;
  msg_text : pyval;
  msg_created_at : pyval;
  msg_tweet_id : pyval
}.

(** What the program does to the outside, in order.  [EvSend] is a call
    of [send_message] with what became of it.  [EvWatermark] is a ghost
    event: it records the assignment [acc["last_tweet_id"] = tweet_id] of
    [update_last_tweet] with the value it replaces. *)
Inductive event : Type :=
| EvLog (text : string)
| EvGet (time : Z) (user : pyval) (since_id : option pyval)
| EvSend (m : message) (accepted : bool)
| EvSleep (seconds : Z)
| EvWatermark (user : string) (old new : pyval)
| EvWrite (text : string).

Record world : Type := mkWorld {
  config : pydict;          (* config_manager.config *)
  disk : option string;     (* the text of config.json, once written *)
  clock : Z;                (* time units slept so far *)
  trace : list event;
  gets : nat;               (* HTTP requests made so far *)
  sends : nat;              (* send_message calls made so far *)
  saves : nat               (* save_config calls made so far *)
}.

Definition M (A : Type) : Type := world -> result A * world.

Definition ret {A} (a : A) : M A := fun w => (Ok a, w).

Definition raise {A} (e : exn) : M A := fun w => (Raise e, w).

Definition bind {A B} (m : M A) (f : A -> M B) : M B :=
  fun w =>
    match m w with
    | (Ok a, w') => f a w'
    | (Raise e, w') => (Raise e, w')
    end.

(** [try: body / except Exception as e: handler e] *)
Definition try_except {A} (body : M A) (handler : exn -> M A) : M A :=
  fun w =>
    match body w with
    | (Ok a, w') => (Ok a, w')
    | (Raise e, w') => handler e w'
    end.

Declare Scope monad_scope.
Delimit Scope monad_scope with monad.
Notation "x <- c1 ;; c2" := (bind c1 (fun x => c2))
  (at level 100, c1 at next level, right associativity) : monad_scope.
Notation "c1 ;; c2" := (bind c1 (fun _ => c2))
  (at level 100, right associativity) : monad_scope.
Open Scope monad_scope.

Definition lift {A} (r : result A) : M A := fun w => (r, w).

Definition with_config (c : pydict) (w : world) : world :=
  mkWorld c (disk w) (clock w) (trace w) (gets w) (sends w) (saves w).

Definition with_disk (d : option string) (w : world) : world :=
  mkWorld (config w) d (clock w) (trace w) (gets w) (sends w) (saves w).

Definition with_clock (t : Z) (w : world) : world :=
  mkWorld (config w) (disk w) t (trace w) (gets w) (sends w) (saves w).

Definition with_trace (tr : list event) (w : world) : world :=
  mkWorld (config w) (disk w) (clock w) tr (gets w) (sends w) (saves w).

Definition get_config : M pydict := fun w => (Ok (config w), w).

Definition set_config (c : pydict) : M unit := fun w => (Ok tt, with_config c w).

Definition emit (e : event) : M unit :=
  fun w => (Ok tt, with_trace (trace w ++ [e]) w).

Definition set_disk (d : option string) : M unit := fun w => (Ok tt, with_disk d w).

Definition now : M Z := fun w => (Ok (clock w), w).

Definition tick (n : Z) : M unit :=
  fun w => (Ok tt, with_clock (clock w + Z.max 0 n) w).

Definition next_get : M nat :=
  fun w => (Ok (gets w), mkWorld (config w) (disk w) (clock w) (trace w)
                                 (S (gets w)) (sends w) (saves w)).

Definition next_send : M nat :=
  fun w => (Ok (sends w), mkWorld (config w) (disk w) (clock w) (trace w)
                                  (gets w) (S (sends w)) (saves w)).

Definition next_save : M nat :=
  fun w => (Ok (saves w), mkWorld (config w) (disk w) (clock w) (trace w)
                                  (gets w) (sends w) (S (saves w))).

(** [logger.info], [logger.warning], [logger.error]: the fixed part of the
    message is recorded. *)
Definition log (text : string) : M unit := emit (EvLog text).

(** [await asyncio.sleep(n)] *)
Definition sleep (n : Z) : M unit := emit (EvSleep n) ;; tick n.

(** [await asyncio.sleep(v)] for a dynamic value *)
Definition py_sleep (v : pyval) : M unit :=
  match v with
  | PInt z => sleep z
  | PBool b => sleep (if b then 1 else 0)
  | _ => raise TypeError
  end.

(** [any(f(x) for x in l)]: stops at the first true element. *)
Fixpoint any_m (f : pyval -> M bool) (l : list pyval) : M bool :=
  match l with
  | [] => ret false
  | x :: r => b <- f x ;; if b then ret true else any_m f r
  end.

(** [[x for x in l if f(x)]] *)
Fixpoint filter_m (f : pyval -> M bool) (l : list pyval) : M (list pyval) :=
  match l with
  | [] => ret []
  | x :: r =>
      b <- f x ;;
      r' <- filter_m f r ;;
      ret (if b then x :: r' else r')
  end.

(** [[f(x) for x in l]] *)
Fixpoint map_m {A} (f : pyval -> M A) (l : list pyval) : M (list A) :=
  match l with
  | [] => ret []
  | x :: r => y <- f x ;; r' <- map_m f r ;; ret (y :: r')
  end.

(** [for x in l: f(x)] *)
Fixpoint for_each {A} (f : A -> M unit) (l : list A) : M unit :=
  match l with
  | [] => ret tt
  | x :: r => f x ;; for_each f r
  end.

(** ** ConfigManager *)

(** What [os.path.exists], [open] and [json.load] find at [config_file]. *)
Inductive file_state : Type :=
| FileMissing
| FileUnreadable
| FileMalformed
| FileJson (v : pyval).

Definition path_exists (f : file_state) : bool :=
  match f with
  | FileMissing => false
  | _ => true
  end.

(** [with open(config_file, 'r') as f: json.load(f)] *)
Definition json_load (f : file_state) : M pyval :=
  match f with
  | FileMissing | FileUnreadable => raise OSError
  | FileMalformed => raise ValueError
  | FileJson v => ret v
  end.

(** The operand of [**v] in a dict display. *)
Definition py_mapping (v : pyval) : result pydict :=
  match v with
  | PDict d => Ok d
  | _ => Raise TypeError
  end.

Definition default_config : pydict :=
  [("monitored_accounts", PList []); ("check_interval", PInt 60)].

Definition _load_config (f : file_state) : M pydict :=
  if path_exists f then
    try_except
      (config <- json_load f ;;
       items <- lift (py_mapping config) ;;
       ret (dict_merge default_config items))
      (fun e => log "Error loading config" ;; ret default_config)
  else ret default_config.

(** [ConfigManager.__init__] *)
Definition ConfigManager_init (f : file_state) : M unit :=
  c <- _load_config f ;; set_config c.

(** [self.config[k]] *)
Definition config_getitem (k : string) : M pyval :=
  c <- get_config ;; lift (py_getitem (PDict c) k).

(** [self.config[k] = v] *)
Definition config_setitem (k : string) (v : pyval) : M unit :=
  c <- get_config ;; set_config (dict_set k v c).

(** [acc["username"].lower() == username.lower()] *)
Definition username_is (username : pyval) (acc : pyval) : M bool :=
  u <- lift (py_getitem acc "username") ;;
  l <- lift (py_lower u) ;;
  r <- lift (py_lower username) ;;
  ret (String.eqb l r).

Definition username_is_not (username : pyval) (acc : pyval) : M bool :=
  b <- username_is username acc ;; ret (negb b).

(** [v.append(x)] *)
Definition py_append (v x : pyval) : result pyval :=
  match v with
  | PList l => Ok (PList (l ++ [x]))
  | _ => Raise AttributeError
  end.

Definition add_account (username : string) (user_id : pyval) : M bool :=
  accounts <- config_getitem "monitored_accounts" ;;
  elems <- lift (py_iter accounts) ;;
  found <- any_m (username_is (PStr username)) elems ;;
  if found then ret false
  else
    accounts <- config_getitem "monitored_accounts" ;;
    accounts' <- lift (py_append accounts
                         (PDict [("username", PStr username);
                                 ("user_id", user_id);
                                 ("last_tweet_id", PNone)])) ;;
    config_setitem "monitored_accounts" accounts' ;;
    ret true.

Definition remove_account (username : string) : M bool :=
  accounts <- config_getitem "monitored_accounts" ;;
  original_count <- lift (py_len accounts) ;;
  accounts <- config_getitem "monitored_accounts" ;;
  elems <- lift (py_iter accounts) ;;
  kept <- filter_m (username_is_not (PStr username)) elems ;;
  config_setitem "monitored_accounts" (PList kept) ;;
  accounts <- config_getitem "monitored_accounts" ;;
  count <- lift (py_len accounts) ;;
  ret (count <? original_count)%nat.

Definition account_field (k : string) : bool :=
  String.eqb k "username" || String.eqb k "user_id" || String.eqb k "last_tweet_id".

(** The constructor call of [get_accounts]: [TwitterAccount] applied to
    the unpacked keys of [acc]. *)
Definition TwitterAccount_of (acc : pyval) : M TwitterAccount :=
  kwargs <- lift (py_mapping acc) ;;
  if forallb (fun kv => account_field (fst kv)) kwargs then
    match dict_get "username" kwargs, dict_get "user_id" kwargs with
    | Some u, Some i =>
        ret (mkTwitterAccount u i (dict_get_default "last_tweet_id" PNone kwargs))
    | _, _ => raise TypeError
    end
  else raise TypeError.

Definition get_accounts : M (list TwitterAccount) :=
  accounts <- config_getitem "monitored_accounts" ;;
  elems <- lift (py_iter accounts) ;;
  map_m TwitterAccount_of elems.

(** [v[k] = x] for a string key [k] *)
Definition py_setitem (v : pyval) (k : string) (x : pyval) : result pyval :=
  match v with
  | PDict d => Ok (PDict (dict_set k x d))
  | _ => Raise TypeError
  end.

(** The loop of [update_last_tweet]: [seen] are the elements already
    passed.  The matching element is a dict object of the list, so the
    assignment changes the list in place. *)
Fixpoint update_loop (username tweet_id : pyval) (seen rest : list pyval) : M unit :=
  match rest with
  | [] => ret tt
  | acc :: rest' =>
      hit <- username_is username acc ;;
      if hit then
        name <- lift (py_getitem acc "username") ;;
        old <- lift (py_mapping acc) ;;
        acc' <- lift (py_setitem acc "last_tweet_id" tweet_id) ;;
        emit (EvWatermark (match name with PStr s => s | _ => EmptyString end)
                          (dict_get_default "last_tweet_id" PNone old) tweet_id) ;;
        config_setitem "monitored_accounts" (PList (seen ++ acc' :: rest'))
      else update_loop username tweet_id (seen ++ [acc]) rest'
  end.

Definition update_last_tweet (username tweet_id : pyval) : M unit :=
  accounts <- config_getitem "monitored_accounts" ;;
  elems <- lift (py_iter accounts) ;;
  update_loop username tweet_id [] elems.

(** ** The outside world *)

(** The answer to one HTTP request: the request fails, or a status comes
    back together with what [resp.json()] yields ([None] when it raises). *)
Inductive http_outcome : Type :=
| HttpFails
| HttpResponse (status : Z) (json : option pyval).

(** How one write of the configuration file ends. *)
Inductive io_outcome : Type :=
| IoOk
| IoOpenFails
| IoWriteFails.

(** The oracles: the answer to the n-th request for the tweets of a user,
    whether the n-th [send_message] is accepted, and how the n-th write of
    the configuration file ends. *)
Record env : Type := mkEnv {
  feed : nat -> pyval -> option pyval -> http_outcome;
  telegram : nat -> message -> bool;
  storage : nat -> io_outcome
}.

(** ** Sorting *)

(** [list.sort] is stable: an element goes in front of the first element
    whose key is not smaller. *)
Fixpoint insert_by_key {A} (x : Z * A) (l : list (Z * A)) : list (Z * A) :=
  match l with
  | [] => [x]
  | y :: r => if (fst x <=? fst y)%Z then x :: l else y :: insert_by_key x r
  end.

Fixpoint sort_by_key {A} (l : list (Z * A)) : list (Z * A) :=
  match l with
  | [] => []
  | x :: r => insert_by_key x (sort_by_key r)
  end.

(** The order of the sorted pairs. *)
Definition key_le {A} (a b : Z * A) : Prop := (fst a <= fst b)%Z.

(** [v.sort(key=key)]: the keys are computed first, so the list is left as
    it is when one of them raises. *)
Definition py_sort (key : pyval -> M Z) (v : pyval) : M (list pyval) :=
  match v with
  | PList l =>
      keys <- map_m key l ;;
      ret (map snd (sort_by_key (combine keys l)))
  | _ => raise AttributeError
  end.

(** [v.get(k, default)] *)
Definition py_get (v : pyval) (k : string) (default : pyval) : result pyval :=
  match v with
  | PDict d => Ok (dict_get_default k default d)
  | _ => Raise AttributeError
  end.

(** The [since_id] entry of [params]: present when [since_id] is true. *)
Definition since_param (since_id : pyval) : option pyval :=
  if py_truthy since_id then Some since_id else None.

Section Bot.

Variable E : env.

Definition save_config : M unit :=
  try_except
    (n <- next_save ;;
     match storage E n with
     | IoOpenFails => raise OSError
     | outcome =>
         set_disk (Some EmptyString) ;;
         c <- get_config ;;
         let text := json_dumps (PDict c) in
         match outcome with
         | IoOk => emit (EvWrite text) ;; set_disk (Some text)
         | _ => raise OSError
         end
     end)
    (fun e => log "Error saving config").

(** ** TwitterMonitor *)

Definition get_recent_tweets (user_id since_id : pyval) : M pyval :=
  let since := since_param since_id in
  try_except
    (n <- next_get ;;
     t <- now ;;
     emit (EvGet t user_id since) ;;
     match feed E n user_id since with
     | HttpFails => raise ClientError
     | HttpResponse status json =>
         if (status =? 200)%Z then
           match json with
           | Some data => lift (py_get data "data" (PList []))
           | None => raise ValueError
           end
         else if (status =? 429)%Z then
           log "Rate limit hit, waiting..." ;; sleep 60 ;; ret (PList [])
         else
           log "Failed to get tweets" ;; ret (PList [])
     end)
    (fun e => log "Error getting tweets" ;; ret (PList [])).

(** ** The delivery pipeline *)

Definition send_tweet_to_telegram (tweet username : pyval) (chat_id : string) : M unit :=
  try_except
    (text <- lift (py_get tweet "text" (PStr EmptyString)) ;;
     tweet_id <- lift (py_get tweet "id" (PStr EmptyString)) ;;
     created_at <- lift (py_get tweet "created_at" (PStr EmptyString)) ;;
     let m := mkMessage chat_id username text created_at tweet_id in
     n <- next_send ;;
     emit (EvSend m (telegram E n m)) ;;
     if telegram E n m then log "Forwarded tweet" else raise TelegramError)
    (fun e => log "Failed to send tweet").

(** [lambda x: int(x["id"])] *)
Definition tweet_key (x : pyval) : M Z :=
  v <- lift (py_getitem x "id") ;; lift (py_int v).

(** The body of the [for] loop of [check_account]. *)
Definition process_tweet (account : TwitterAccount) (chat_id : string)
    (tweet : pyval) : M unit :=
  send_tweet_to_telegram tweet (username account) chat_id ;;
  tweet_id <- lift (py_getitem tweet "id") ;;
  update_last_tweet (username account) tweet_id ;;
  sleep 1.

Definition check_account (account : TwitterAccount) (chat_id : string) : M unit :=
  try_except
    (tweets <- get_recent_tweets (user_id account) (last_tweet_id account) ;;
     if py_truthy tweets then
       sorted <- py_sort tweet_key tweets ;;
       for_each (process_tweet account chat_id) sorted
     else ret tt)
    (fun e => log "Error checking account").

(** ** The scheduler *)

(** One pass of the [while] loop of [monitoring_loop].  The tasks that
    [asyncio.gather] runs are carried out one after the other, in the
    order of the account list. *)
Definition monitoring_round (chat_id : string) : M unit :=
  try_except
    (accounts <- get_accounts ;;
     match accounts with
     | [] => ret tt
     | _ => for_each (fun account => check_account account chat_id) accounts ;;
            save_config
     end ;;
     interval <- config_getitem "check_interval" ;;
     py_sleep interval)
    (fun e => log "Error in monitoring loop" ;; sleep 10).

(** The first [rounds] passes of the loop (it runs until it is cancelled). *)
Fixpoint monitoring_loop (rounds : nat) (chat_id : string) : M unit :=
  match rounds with
  | O => ret tt
  | S n => monitoring_round chat_id ;; monitoring_loop n chat_id
  end.

End Bot.


(** ** The account list seen as records *)

(** An element of [config["monitored_accounts"]] as [add_account] builds
    it: a dict with exactly the three keys of [TwitterAccount]. *)
Record entry : Type := mkEntry {
  entry_username : string;
  entry_user_id : pyval;
  entry_last : pyval
}.

Definition entry_dict (e : entry) : pyval :=
  PDict [("username", PStr (entry_username e));
         ("user_id", entry_user_id e);
         ("last_tweet_id", entry_last e)].

Definition account_of (e : entry) : TwitterAccount :=
  mkTwitterAccount (PStr (entry_username e)) (entry_user_id e) (entry_last e).

(** The account list of the world [w] is the list of records [accs]. *)
Definition stored (accs : list entry) (w : world) : Prop :=
  dict_get "monitored_accounts" (config w) = Some (PList (map entry_dict accs)).

Definition store (accs : list entry) (w : world) : world :=
  with_config (dict_set "monitored_accounts" (PList (map entry_dict accs)) (config w)) w.

(** The key of an account: its username without case. *)
Definition handle (e : entry) : string := str_lower (entry_username e).

Definition same_user (u : string) (e : entry) : bool :=
  String.eqb (handle e) (str_lower u).

(** ** Sequences of add and remove operations *)

Inductive op : Type :=
| Add (username : string) (user_id : pyval)
| Remove (username : string).

Definition apply_op (o : op) : M bool :=
  match o with
  | Add u i => add_account u i
  | Remove u => remove_account u
  end.

Fixpoint run_ops (ops : list op) : M unit :=
  match ops with
  | [] => ret tt
  | o :: r => apply_op o ;; run_ops r
  end.

Definition op_handle (o : op) : string :=
  match o with
  | Add u _ => str_lower u
  | Remove u => str_lower u
  end.

Definition is_add (o : op) : bool :=
  match o with
  | Add _ _ => true
  | Remove _ => false
  end.

(** The handle [h] is monitored after the operations [ops], read off the
    operations alone: the last one that names [h] is an add. *)
Definition present (h : string) (ops : list op) : bool :=
  fold_left (fun b o => if String.eqb (op_handle o) h then is_add o else b) ops false.

Definition removes (h : string) (o : op) : bool :=
  negb (is_add o) && String.eqb (op_handle o) h.

(** The accounts that the operations [after] insert and leave in place when
    they follow the operations [before], in the order of their insertion:
    an add inserts when its handle is not monitored at that moment, and the
    account stays when no later operation removes its handle. *)
Fixpoint still_present (before after : list op) : list entry :=
  match after with
  | [] => []
  | o :: r =>
      match o with
      | Add u i =>
          if negb (present (str_lower u) before) && negb (existsb (removes (str_lower u)) r)
          then [mkEntry u i PNone]
          else []
      | Remove _ => []
      end ++ still_present (before ++ [o]) r
  end.

(** The account list after one operation, as a function on records. *)
Definition step (accs : list entry) (o : op) : list entry :=
  match o with
  | Add u i =>
      if existsb (same_user u) accs then accs else accs ++ [mkEntry u i PNone]
  | Remove u => filter (fun e => negb (same_user u e)) accs
  end.

(** An account with the handle [h] is in the list. *)
Definition has_handle (h : string) (accs : list entry) : bool :=
  existsb (fun e => String.eqb (handle e) h) accs.

(** No operation of [after] removes the account [e]. *)
Definition survives (after : list op) (e : entry) : bool :=
  negb (existsb (removes (handle e)) after).

(** ** Worlds and environments for the examples *)

(** The world of a process that has just started without a configuration
    file. *)
Definition fresh_world : world := mkWorld default_config None 0 [] 0 0 0.

Definition bob : entry := mkEntry "Bob" (PStr "77") (PStr "2").

Definition bob_world : world := store [bob] fresh_world.

(** The file gives no record to merge: it is missing, cannot be read, is
    not valid JSON, or holds a JSON value that is not an object. *)
Definition unusable (f : file_state) : Prop :=
  match f with
  | FileJson (PDict _) => False
  | _ => True
  end.

(** An environment in which every request, delivery and write succeeds and
    the feed has no new tweet. *)
Definition quiet_env : env :=
  mkEnv (fun _ _ _ => HttpResponse 200 (Some (PDict [])))
        (fun _ _ => true)
        (fun _ => IoOk).


(** ** Time stamps in a trace *)

Definition rate_limit_text : string := "Rate limit hit, waiting...".

(** The clock after the events [evs], started at [c]. *)
Fixpoint clock_after (c : Z) (evs : list event) : Z :=
  match evs with
  | [] => c
  | EvSleep n :: r => clock_after (c + Z.max 0 n) r
  | _ :: r => clock_after c r
  end.

(** The events [evs] can have been produced from the clock value [c]:
    each request carries the time at which it is made, and the log entry
    of a rate limit is directly followed by a sleep of 60. *)
Fixpoint well_timed (c : Z) (evs : list event) : Prop :=
  match evs with
  | [] => True
  | EvGet t _ _ :: r => t = c /\ well_timed c r
  | EvSleep n :: r => well_timed (c + Z.max 0 n) r
  | EvLog text :: r =>
      (text = rate_limit_text -> exists r', r = EvSleep 60 :: r')
      /\ well_timed c r
  | _ :: r => well_timed c r
  end.

(** What a computation adds to the trace is well timed, and it leaves the
    clock where these events put it. *)
Definition timed {A} (m : M A) : Prop :=
  forall w, exists evs,
    trace (snd (m w)) = trace w ++ evs
    /\ well_timed (clock w) evs
    /\ clock (snd (m w)) = clock_after (clock w) evs.

(** After a request for the tweets of [u] that was answered with a rate
    limit, every later request for the tweets of [u] is made at least 60
    time units later. *)
Definition cooldown_respected (evs : list event) : Prop :=
  forall pre t u s post,
    evs = pre ++ EvGet t u s :: EvLog rate_limit_text :: post ->
    Forall (fun ev => match ev with
                      | EvGet t' u' _ => u' = u -> (t + 60 <= t')%Z
                      | _ => True
                      end) post.


(** An environment whose feed answers every request with a rate limit. *)
Definition limited_env : env :=
  mkEnv (fun _ _ _ => HttpResponse 429 None) (fun _ _ => true) (fun _ => IoOk).

(** An environment whose network is down. *)
Definition offline_env : env :=
  mkEnv (fun _ _ _ => HttpFails) (fun _ _ => true) (fun _ => IoOk).


(** ** Views of the delivery pipeline used in the statements *)

(** The value under ["id"] of a tweet ([None] when there is none). *)
Definition tweet_id (t : pyval) : pyval :=
  match t with
  | PDict d => dict_get_default "id" PNone d
  | _ => PNone
  end.

(** The number that the sort key [int(x["id"])] gives for a tweet. *)
Definition tweet_number (t : pyval) : option Z :=
  match py_getitem t "id" with
  | Ok v => match py_int v with
            | Ok n => Some n
            | Raise _ => None
            end
  | Raise _ => None
  end.

Definition number_or_zero (t : pyval) : Z :=
  match tweet_number t with
  | Some n => n
  | None => 0%Z
  end.

(** The list that [tweets.sort(key=lambda x: int(x["id"]))] leaves when
    every key can be computed. *)
Definition sorted_tweets (tweets : list pyval) : list pyval :=
  map snd (sort_by_key (combine (map number_or_zero tweets) tweets)).

(** The message that [send_tweet_to_telegram] builds for a tweet. *)
Definition message_of (chat_id : string) (username tweet : pyval) : message :=
  match tweet with
  | PDict d =>
      mkMessage chat_id username
                (dict_get_default "text" (PStr EmptyString) d)
                (dict_get_default "created_at" (PStr EmptyString) d)
                (dict_get_default "id" (PStr EmptyString) d)
  | _ => mkMessage chat_id username PNone PNone PNone
  end.

(** [acc["last_tweet_id"] = tweet_id] in the first account with the handle
    of [u]. *)
Fixpoint set_last (u : string) (id : pyval) (accs : list entry) : list entry :=
  match accs with
  | [] => []
  | e :: r =>
      if same_user u e
      then mkEntry (entry_username e) (entry_user_id e) id :: r
      else e :: set_last u id r
  end.

(** The stored watermark of the first account with the handle of [u]. *)
Definition watermark (u : string) (accs : list entry) : option pyval :=
  option_map entry_last (find (same_user u) accs).

(** The events of the [for] loop of [check_account] over the tweets
    [sorted] for an account whose entry is stored under the name [name]
    with the watermark [old], when [n] messages have been sent before. *)
Fixpoint delivery_events (E : env) (chat_id : string) (name : string)
    (n : nat) (old : pyval) (sorted : list pyval) : list event :=
  match sorted with
  | [] => []
  | t :: r =>
      let m := message_of chat_id (PStr name) t in
      EvSend m (telegram E n m)
      :: EvLog (if telegram E n m then "Forwarded tweet" else "Failed to send tweet")
      :: EvWatermark name old (tweet_id t)
      :: EvSleep 1
      :: delivery_events E chat_id name (S n) (tweet_id t) r
  end.

(** The messages handed to Telegram, in order, with their outcome. *)
Fixpoint sends_of (evs : list event) : list (message * bool) :=
  match evs with
  | [] => []
  | EvSend m b :: r => (m, b) :: sends_of r
  | _ :: r => sends_of r
  end.

(** The values written to a watermark, in order. *)
Fixpoint watermarks_of (evs : list event) : list pyval :=
  match evs with
  | [] => []
  | EvWatermark _ _ new :: r => new :: watermarks_of r
  | _ :: r => watermarks_of r
  end.


(** A tweet of the examples: a dict with an id and a text. *)
Definition tw (id : string) : pyval :=
  PDict [("id", PStr id); ("text", PStr "hello")].

(** The feed of the examples: asked for what is newer than tweet 2 it
    returns the tweets 5, 3 and 9, in this order, and nothing otherwise. *)
Definition example_feed (n : nat) (user : pyval) (since_id : option pyval) : http_outcome :=
  match since_id with
  | Some (PStr s) =>
      if String.eqb s "2"
      then HttpResponse 200 (Some (PDict [("data", PList [tw "5"; tw "3"; tw "9"])]))
      else HttpResponse 200 (Some (PDict []))
  | _ => HttpResponse 200 (Some (PDict []))
  end.

(** Every delivery succeeds. *)
Definition example_env : env :=
  mkEnv example_feed (fun _ _ => true) (fun _ => IoOk).

Definition has_id (id : string) (m : message) : bool :=
  match msg_tweet_id m with
  | PStr s => String.eqb s id
  | _ => false
  end.

(** The delivery of tweet 5 fails, every other delivery succeeds. *)
Definition flaky_env : env :=
  mkEnv example_feed (fun _ m => negb (has_id "5" m)) (fun _ => IoOk).

(** The ids of the messages handed to Telegram, with the outcome. *)
Definition sent_ids (evs : list event) : list (pyval * bool) :=
  map (fun p => (msg_tweet_id (fst p), snd p)) (sends_of evs).

(** The claim that a watermark only moves to a tweet whose delivery was
    confirmed: every write of a watermark comes after an accepted message
    with that tweet id. *)
Definition advances_only_after_delivery (evs : list event) : Prop :=
  forall pre u old new post,
    evs = pre ++ EvWatermark u old new :: post ->
    In (new, true) (sent_ids pre).


(** What the code does instead: every write of a watermark comes after a
    message with that tweet id was handed to Telegram, accepted or not. *)
Definition advances_after_attempt (evs : list event) : Prop :=
  forall pre u old new post,
    evs = pre ++ EvWatermark u old new :: post ->
    exists accepted, In (new, accepted) (sent_ids pre).


(** ** Watermarks over time *)

(** The numeric value of a tweet id or of a watermark: ids are strings. *)
Definition id_value (v : pyval) : option Z :=
  match v with
  | PStr s => int_of_string s
  | _ => None
  end.

(** The tweet [t] has a string id whose number is above the number of the
    [since_id] of the request, when the request has one with a number. *)
Definition newer_than (since_id : option pyval) (t : pyval) : Prop :=
  exists d s k,
    t = PDict d /\ dict_get "id" d = Some (PStr s) /\ int_of_string s = Some k
    /\ forall v m, since_id = Some v -> id_value v = Some m -> (m < k)%Z.

(** The feed only returns tweets that are newer than the [since_id] it is
    asked with. *)
Definition feed_newer (E : env) : Prop :=
  forall n uid since_id body tweets,
    feed E n uid since_id = HttpResponse 200 (Some (PDict body)) ->
    dict_get "data" body = Some (PList tweets) ->
    Forall (newer_than since_id) tweets.

(** No write of a watermark replaces an id by one with a smaller number. *)
Definition never_lowered (evs : list event) : Prop :=
  Forall (fun ev =>
            match ev with
            | EvWatermark _ old new =>
                forall m, id_value old = Some m ->
                          exists k, id_value new = Some k /\ (m <= k)%Z
            | _ => True
            end) evs.

(** Events that neither send a message nor write a watermark. *)
Definition quiet (evs : list event) : Prop :=
  Forall (fun ev =>
            match ev with
            | EvSend _ _ | EvWatermark _ _ _ => False
            | _ => True
            end) evs.

(** A computation that leaves the configuration alone and is quiet. *)
Definition harmless {A} (m : M A) : Prop :=
  forall w,
    config (snd (m w)) = config w
    /\ exists evs, trace (snd (m w)) = trace w ++ evs /\ quiet evs.

(** The numbers of the ids of the messages handed to Telegram are [ks]. *)
Definition sent_numbers (evs : list event) (ks : list Z) : Prop :=
  map (fun p => id_value (fst p)) (sent_ids evs) = map Some ks.

(** The feed of the counterexample: asked for what is newer than tweet 2
    it returns tweet 5 twice. *)
Definition repeating_env : env :=
  mkEnv (fun _ _ since_id =>
           match since_id with
           | Some (PStr s) =>
               if String.eqb s "2"
               then HttpResponse 200 (Some (PDict [("data", PList [tw "5"; tw "5"])]))
               else HttpResponse 200 (Some (PDict []))
           | _ => HttpResponse 200 (Some (PDict []))
           end)
        (fun _ _ => true) (fun _ => IoOk).

(** The tweet has a string id that [int] reads. *)
Definition string_id (t : pyval) : Prop :=
  exists d s k,
    t = PDict d /\ dict_get "id" d = Some (PStr s) /\ int_of_string s = Some k.


(** A hand-written account list with the same handle twice, and a feed
    with one tweet newer than tweet 5. *)
Definition twins : list entry :=
  [mkEntry "Bob" (PStr "77") (PStr "100"); mkEntry "bob" (PStr "78") (PStr "5")].

Definition twins_env : env :=
  mkEnv (fun _ _ since_id =>
           match since_id with
           | Some (PStr s) =>
               if String.eqb s "5"
               then HttpResponse 200 (Some (PDict [("data", PList [tw "6"])]))
               else HttpResponse 200 (Some (PDict []))
           | _ => HttpResponse 200 (Some (PDict []))
           end)
        (fun _ _ => true) (fun _ => IoOk).


(** ** Views used for the rest of the program *)

(** A computation leaves the part [proj] of the world as it was. *)
Definition keeps {X A} (proj : world -> X) (m : M A) : Prop :=
  forall w, proj (snd (m w)) = proj w.

(** A value that the constructor of [TwitterAccount] accepts as keyword
    arguments: a dict whose keys are fields of the class and that has the
    two fields without a default. *)
Definition account_like (v : pyval) : bool :=
  match v with
  | PDict d =>
      forallb (fun kv => account_field (fst kv)) d
      && match dict_get "username" d, dict_get "user_id" d with
         | Some _, Some _ => true
         | _, _ => false
         end
  | _ => false
  end.

(** A configuration as a hand-edited file can give it: the second account
    has a key that [TwitterAccount] does not know. *)
Definition odd_world : world :=
  with_config
    [("monitored_accounts",
      PList [entry_dict bob;
             PDict [("username", PStr "eve"); ("user_id", PStr "9");
                    ("note", PStr "added by hand")]]);
     ("check_interval", PInt 60)]
    fresh_world.


(** ** The rest of [TwitterMonitor] *)

(** [get_user_id]: [answer] is what comes back for the request of the
    user with the given username. *)
Definition get_user_id (answer : http_outcome) (username : string) : M pyval :=
  try_except
    (match answer with
     | HttpFails => raise ClientError
     | HttpResponse status json =>
         if (status =? 200)%Z then
           match json with
           | Some data =>
               user <- lift (py_get data "data" (PDict [])) ;;
               lift (py_get user "id" PNone)
           | None => raise ValueError
           end
         else
           log "Failed to get user ID" ;; ret PNone
     end)
    (fun e => log "Error getting user ID" ;; ret PNone).

(** A feed whose second tweet has an id that is not a number. *)
Definition garbled_env : env :=
  mkEnv (fun _ _ _ =>
           HttpResponse 200
             (Some (PDict [("data", PList [tw "5"; PDict [("id", PStr "five")]])])))
        (fun _ _ => true) (fun _ => IoOk).


(** The file and the count of its writes. *)
Definition file_part (w : world) : option string * nat := (disk w, saves w).


(** ** The command handlers *)

(** The white space that [str.strip] removes. *)
Definition is_whitespace (c : ascii) : bool :=
  let n := nat_of_ascii c in
  ((9 <=? n) && (n <=? 13))%nat || ((28 <=? n) && (n <=? 32))%nat
  || (n =? 133)%nat || (n =? 160)%nat.

(** [s.replace(c, "")] for a string [c] of one character *)
Fixpoint str_remove (c : ascii) (s : string) : string :=
  match s with
  | EmptyString => EmptyString
  | String x r => if Ascii.eqb x c then str_remove c r else String x (str_remove c r)
  end.

Fixpoint str_lstrip (s : string) : string :=
  match s with
  | EmptyString => EmptyString
  | String c r => if is_whitespace c then str_lstrip r else s
  end.

Fixpoint str_rstrip (s : string) : string :=
  match s with
  | EmptyString => EmptyString
  | String c r =>
      match str_rstrip r with
      | EmptyString => if is_whitespace c then EmptyString else String c EmptyString
      | r' => String c r'
      end
  end.

(** [s.strip()] *)
Definition str_strip (s : string) : string := str_rstrip (str_lstrip s).

(** [context.args[0].replace("@", "").strip()] *)
Definition clean_username (arg : string) : string :=
  str_strip (str_remove "@"%char arg).

(** [c in s] for a string [c] of one character *)
Fixpoint has_char (c : ascii) (s : string) : bool :=
  match s with
  | EmptyString => false
  | String x r => Ascii.eqb x c || has_char c r
  end.

(** [s[:1].isspace()] and [s[-1:].isspace()], for white space of [str.strip] *)
Definition starts_white (s : string) : bool :=
  match s with
  | EmptyString => false
  | String c _ => is_whitespace c
  end.

Fixpoint ends_white (s : string) : bool :=
  match s with
  | EmptyString => false
  | String c EmptyString => is_whitespace c
  | String _ r => ends_white r
  end.

(** What a handler answers with [update.message.reply_text]: the kind of
    the message and the username it names (the wording is not modelled). *)
Inductive reply : Type :=
| ReplyAddUsage
| ReplyRemoveUsage
| ReplyNoMonitor
| ReplyNotFound (username : string)
| ReplyAdded (username : string)
| ReplyAlready (username : string)
| ReplyRemoved (username : string)
| ReplyNotMonitored (username : string).

(** [await update.message.reply_text(...)]: the answer goes out, or the
    call raises.  A handler returns the answer it gave. *)
Definition reply_text (r : reply) (accepted : bool) : M reply :=
  if accepted then ret r else raise TelegramError.

Section Commands.

Variable E : env.

(** [cmd_add_account]: [monitor] says whether [twitter_monitor] is set,
    [args] is [context.args], [answer] is what comes back for the request
    of the user id, and [accepted] says whether the reply goes out. *)
Definition cmd_add_account (monitor : bool) (args : list string)
    (answer : http_outcome) (accepted : bool) : M reply :=
  match args with
  | [] => reply_text ReplyAddUsage accepted
  | arg :: _ =>
      let username := clean_username arg in
      if negb monitor then reply_text ReplyNoMonitor accepted
      else
        user_id <- get_user_id answer username ;;
        if negb (py_truthy user_id) then reply_text (ReplyNotFound username) accepted
        else
          added <- add_account username user_id ;;
          if added then
            save_config E ;;
            r <- reply_text (ReplyAdded username) accepted ;;
            log "Added to monitoring" ;;
            ret r
          else reply_text (ReplyAlready username) accepted
  end.

(** [cmd_remove_account] *)
Definition cmd_remove_account (args : list string) (accepted : bool) : M reply :=
  match args with
  | [] => reply_text ReplyRemoveUsage accepted
  | arg :: _ =>
      let username := clean_username arg in
      removed <- remove_account username ;;
      if removed then
        save_config E ;;
        r <- reply_text (ReplyRemoved username) accepted ;;
        log "Removed from monitoring" ;;
        ret r
      else reply_text (ReplyNotMonitored username) accepted
  end.

End Commands.

(** The answer of the service to the request of a user id that exists. *)
Definition found (id : string) : http_outcome :=
  HttpResponse 200 (Some (PDict [("data", PDict [("id", PStr id)])])).


(** * Properties *)

(** ** Dictionaries *)

Lemma dict_get_set_eq k v d : dict_get k (dict_set k v d) = Some v.
Proof.
  induction d as [|[k' v'] r IH]; simpl.
  - now rewrite String.eqb_refl.
  - destruct (String.eqb k k') eqn:Hk; simpl; rewrite Hk; auto.
Qed.

Lemma dict_get_set_ne k k' v d :
  k <> k' -> dict_get k' (dict_set k v d) = dict_get k' d.
Proof.
  intros Hne. induction d as [|[k0 v0] r IH]; simpl.
  - destruct (String.eqb k' k) eqn:Hk; auto.
    apply String.eqb_eq in Hk. congruence.
  - destruct (String.eqb k k0) eqn:Hk; simpl.
    + apply String.eqb_eq in Hk. subst k0.
      destruct (String.eqb k' k) eqn:Hk'; auto.
      apply String.eqb_eq in Hk'. congruence.
    + now rewrite IH.
Qed.

Lemma dict_set_set k v1 v2 d : dict_set k v2 (dict_set k v1 d) = dict_set k v2 d.
Proof.
  induction d as [|[k' v'] r IH]; simpl.
  - now rewrite String.eqb_refl.
  - destruct (String.eqb k k') eqn:Hk; simpl; rewrite Hk; congruence.
Qed.

Lemma dict_set_same k v d : dict_get k d = Some v -> dict_set k v d = d.
Proof.
  induction d as [|[k' v'] r IH]; simpl; intros H.
  - discriminate.
  - destruct (String.eqb k k') eqn:Hk.
    + congruence.
    + now rewrite IH.
Qed.

(** ** The store operations on a list of records *)

Lemma stored_store accs w : stored accs (store accs w).
Proof. unfold stored, store. simpl. apply dict_get_set_eq. Qed.

Lemma store_store a b w : store b (store a w) = store b w.
Proof. unfold store, with_config. simpl. now rewrite dict_set_set. Qed.

Lemma store_same accs w : stored accs w -> store accs w = w.
Proof.
  unfold stored, store, with_config. intros H.
  rewrite (dict_set_same _ _ _ H). now destruct w.
Qed.

Lemma config_getitem_stored accs w :
  stored accs w ->
  config_getitem "monitored_accounts" w = (Ok (PList (map entry_dict accs)), w).
Proof.
  unfold stored, config_getitem, bind, get_config, lift. simpl.
  now intros ->.
Qed.

Lemma username_is_entry u e w :
  username_is (PStr u) (entry_dict e) w = (Ok (same_user u e), w).
Proof. reflexivity. Qed.

Lemma any_m_entries u accs w :
  any_m (username_is (PStr u)) (map entry_dict accs) w
  = (Ok (existsb (same_user u) accs), w).
Proof.
  induction accs as [|e r IH]; simpl; auto.
  unfold bind. rewrite username_is_entry.
  destruct (same_user u e); simpl; auto.
Qed.

Lemma filter_m_entries u accs w :
  filter_m (username_is_not (PStr u)) (map entry_dict accs) w
  = (Ok (map entry_dict (filter (fun e => negb (same_user u e)) accs)), w).
Proof.
  induction accs as [|e r IH]; simpl; auto.
  unfold bind at 1. unfold username_is_not at 1. unfold bind at 1.
  rewrite username_is_entry. simpl. unfold bind at 1. rewrite IH.
  destruct (same_user u e); reflexivity.
Qed.

Lemma map_m_entries accs w :
  map_m TwitterAccount_of (map entry_dict accs) w = (Ok (map account_of accs), w).
Proof.
  induction accs as [|e r IH]; simpl; auto.
  unfold bind at 1. simpl. unfold bind at 1. now rewrite IH.
Qed.

Lemma add_account_stored u i accs w :
  stored accs w ->
  add_account u i w
  = if existsb (same_user u) accs then (Ok false, w)
    else (Ok true, store (accs ++ [mkEntry u i PNone]) w).
Proof.
  intros H. unfold add_account.
  unfold bind at 1. rewrite (config_getitem_stored _ _ H).
  unfold bind at 1. simpl. unfold bind at 1. rewrite any_m_entries.
  destruct (existsb (same_user u) accs); auto.
  unfold bind at 1. rewrite (config_getitem_stored _ _ H).
  unfold bind, lift, config_setitem, get_config, set_config, ret, bind. simpl.
  unfold store. now rewrite map_app.
Qed.

Lemma remove_account_stored u accs w :
  stored accs w ->
  remove_account u w
  = let kept := filter (fun e => negb (same_user u e)) accs in
    (Ok (List.length kept <? List.length accs)%nat, store kept w).
Proof.
  intros H. unfold remove_account.
  unfold bind at 1. rewrite (config_getitem_stored _ _ H).
  unfold bind at 1. simpl.
  unfold bind at 1. rewrite (config_getitem_stored _ _ H).
  unfold bind at 1. simpl.
  unfold bind at 1. rewrite filter_m_entries.
  unfold bind at 1. unfold config_setitem, get_config, set_config, bind. simpl.
  rewrite dict_get_set_eq. simpl. unfold ret. now rewrite !length_map.
Qed.

Lemma get_accounts_stored accs w :
  stored accs w -> get_accounts w = (Ok (map account_of accs), w).
Proof.
  intros H. unfold get_accounts.
  unfold bind at 1. rewrite (config_getitem_stored _ _ H).
  unfold bind at 1. simpl. apply map_m_entries.
Qed.

(** C5: on a well-formed account list, [add_account] returns [False] and
    changes nothing when an account with the same handle (the username
    without case) is stored, and otherwise returns [True] after appending
    the account with the given username and user id and the watermark
    [None]. *)
Theorem add_account_spec (accs : list entry) (w : world) (u : string) (i : pyval) :
  stored accs w ->
  ((exists e, In e accs /\ handle e = str_lower u) ->
   add_account u i w = (Ok false, w))
  /\ ((forall e, In e accs -> handle e <> str_lower u) ->
      add_account u i w = (Ok true, store (accs ++ [mkEntry u i PNone]) w)
      /\ stored (accs ++ [mkEntry u i PNone]) (store (accs ++ [mkEntry u i PNone]) w)).
Proof.
  intros H. rewrite (add_account_stored u i accs w H). split.
  - intros [e [Hin He]].
    assert (Hex : existsb (same_user u) accs = true).
    { apply existsb_exists. exists e. split; auto.
      unfold same_user. now apply String.eqb_eq. }
    now rewrite Hex.
  - intros Hall.
    assert (Hex : existsb (same_user u) accs = false).
    { destruct (existsb (same_user u) accs) eqn:Hx; auto.
      apply existsb_exists in Hx. destruct Hx as [e [Hin He]].
      apply String.eqb_eq in He. now elim (Hall e Hin). }
    rewrite Hex. split; auto using stored_store.
Qed.

Lemma add_account_spec_witness :
  add_account "BOB" (PStr "1") bob_world = (Ok false, bob_world)
  /\ add_account "alice" (PStr "2") bob_world
     = (Ok true, store [bob; mkEntry "alice" (PStr "2") PNone] bob_world).
Proof.
  destruct (add_account_spec [bob] bob_world "BOB" (PStr "1") eq_refl) as [Hdup _].
  destruct (add_account_spec [bob] bob_world "alice" (PStr "2") eq_refl) as [_ Hnew].
  split.
  - apply Hdup. exists bob. split; [now left | reflexivity].
  - apply Hnew. intros e [<- | []]. discriminate.
Defined.

(** ** Sequences of operations *)

Lemma run_ops_stored ops : forall accs w,
  stored accs w ->
  run_ops ops w = (Ok tt, store (fold_left step ops accs) w).
Proof.
  induction ops as [|o r IH]; intros accs w H; simpl.
  - now rewrite (store_same _ _ H).
  - unfold bind. destruct o as [u i|u]; simpl.
    + rewrite (add_account_stored u i accs w H).
      destruct (existsb (same_user u) accs); auto.
      rewrite (IH _ _ (stored_store _ w)). now rewrite store_store.
    + rewrite (remove_account_stored u accs w H). simpl.
      rewrite (IH _ _ (stored_store _ w)). now rewrite store_store.
Qed.

Lemma has_handle_app h a b : has_handle h (a ++ b) = has_handle h a || has_handle h b.
Proof. apply existsb_app. Qed.

Lemma has_handle_In h accs : has_handle h accs = true <-> In h (map handle accs).
Proof.
  unfold has_handle. rewrite existsb_exists, in_map_iff. split.
  - intros [e [Hin He]]. apply String.eqb_eq in He. eauto.
  - intros [e [He Hin]]. exists e. split; auto. now apply String.eqb_eq.
Qed.

Lemma has_handle_filter_same h accs :
  has_handle h (filter (fun e => negb (String.eqb (handle e) h)) accs) = false.
Proof.
  induction accs as [|e r IH]; simpl; auto.
  destruct (String.eqb (handle e) h) eqn:He; simpl; auto.
  now rewrite He.
Qed.

Lemma has_handle_filter_other h h' accs :
  h <> h' ->
  has_handle h (filter (fun e => negb (String.eqb (handle e) h')) accs)
  = has_handle h accs.
Proof.
  intros Hne. induction accs as [|e r IH]; simpl; auto.
  destruct (String.eqb (handle e) h') eqn:He; simpl.
  - apply String.eqb_eq in He.
    destruct (String.eqb (handle e) h) eqn:He'; auto.
    apply String.eqb_eq in He'. congruence.
  - now rewrite IH.
Qed.

Lemma existsb_same_user u accs :
  existsb (same_user u) accs = has_handle (str_lower u) accs.
Proof. reflexivity. Qed.

Lemma step_snoc ops o accs :
  fold_left step (ops ++ [o]) accs = step (fold_left step ops accs) o.
Proof. now rewrite fold_left_app. Qed.

Lemma present_snoc h ops o :
  present h (ops ++ [o])
  = if String.eqb (op_handle o) h then is_add o else present h ops.
Proof. unfold present. now rewrite fold_left_app. Qed.

(** A handle is in the account list exactly when the last operation that
    names it is an add. *)
Lemma has_handle_present h ops :
  has_handle h (fold_left step ops []) = present h ops.
Proof.
  induction ops as [|o ops IH] using rev_ind; auto.
  rewrite step_snoc, present_snoc.
  set (accs := fold_left step ops []) in *.
  destruct o as [u i|u]; simpl.
  - rewrite existsb_same_user.
    destruct (String.eqb (str_lower u) h) eqn:Hu.
    + apply String.eqb_eq in Hu. subst h.
      destruct (has_handle (str_lower u) accs) eqn:Hh; auto.
      rewrite has_handle_app, Hh. simpl.
      unfold handle. simpl. now rewrite String.eqb_refl.
    + destruct (has_handle (str_lower u) accs) eqn:Hh; auto.
      rewrite has_handle_app, IH. simpl. unfold handle. simpl.
      rewrite Hu. now rewrite !orb_false_r.
  - destruct (String.eqb (str_lower u) h) eqn:Hu.
    + apply String.eqb_eq in Hu. subst h. apply has_handle_filter_same.
    + rewrite <- IH. apply has_handle_filter_other.
      intros ->. now rewrite String.eqb_refl in Hu.
Qed.

Lemma unique_handles_filter (keep : entry -> bool) (accs : list entry) :
  NoDup (map handle accs) -> NoDup (map handle (filter keep accs)).
Proof.
  induction accs as [|e r IH]; simpl; auto.
  intros Hnd. inversion Hnd as [|? ? Hnin Hr]; subst.
  destruct (keep e); simpl; auto.
  constructor; auto.
  rewrite in_map_iff in *. intros [e' [He' Hin]].
  apply filter_In in Hin. apply Hnin. exists e'. tauto.
Qed.

Lemma NoDup_snoc {A} (l : list A) (x : A) :
  NoDup l -> ~ In x l -> NoDup (l ++ [x]).
Proof.
  induction l as [|y r IH]; simpl; intros Hnd Hnin.
  - constructor; [auto | constructor].
  - inversion Hnd; subst. constructor.
    + rewrite in_app_iff. simpl. intuition congruence.
    + apply IH; auto.
Qed.

Lemma step_unique accs o :
  NoDup (map handle accs) -> NoDup (map handle (step accs o)).
Proof.
  intros H. destruct o as [u i|u]; simpl.
  - destruct (existsb (same_user u) accs) eqn:Hex; auto.
    rewrite map_app. simpl. apply NoDup_snoc; auto.
    intros Hin. apply has_handle_In in Hin.
    rewrite existsb_same_user in Hex. unfold handle at 1 in Hin.
    simpl in Hin. congruence.
  - now apply unique_handles_filter.
Qed.

Lemma fold_step_unique ops : forall accs,
  NoDup (map handle accs) -> NoDup (map handle (fold_left step ops accs)).
Proof.
  induction ops as [|o r IH]; simpl; auto using step_unique.
Qed.

Lemma filter_survives_remove u r l :
  filter (survives r) (filter (fun e => negb (same_user u e)) l)
  = filter (survives (Remove u :: r)) l.
Proof.
  induction l as [|e l IHl]; simpl; auto.
  unfold survives at 2. simpl. unfold removes at 1. simpl.
  unfold same_user. rewrite (String.eqb_sym (str_lower u)).
  destruct (String.eqb (handle e) (str_lower u)); simpl.
  - apply IHl.
  - change (negb (existsb (removes (handle e)) r)) with (survives r e).
    destruct (survives r e); simpl; [f_equal|]; exact IHl.
Qed.

(** The account list after [before ++ after]: what was there after
    [before] and is not removed, then what [after] inserts and leaves. *)
Lemma fold_step_still_present after : forall before,
  fold_left step (before ++ after) []
  = filter (survives after) (fold_left step before [])
    ++ still_present before after.
Proof.
  induction after as [|o r IH]; intros before.
  - rewrite !app_nil_r. simpl.
    induction (fold_left step before []) as [|e l IHl]; simpl; congruence.
  - replace (before ++ o :: r) with ((before ++ [o]) ++ r)
      by now rewrite <- app_assoc.
    rewrite IH, step_snoc. simpl still_present.
    rewrite app_assoc. f_equal.
    set (accs := fold_left step before []).
    assert (Hp : has_handle (op_handle o) accs = present (op_handle o) before)
      by apply has_handle_present.
    destruct o as [u i|u]; simpl in *.
    + rewrite existsb_same_user, <- Hp.
      destruct (has_handle (str_lower u) accs); simpl.
      * rewrite app_nil_r. apply filter_ext. intros e. reflexivity.
      * rewrite filter_app. f_equal.
    + rewrite app_nil_r. apply filter_survives_remove.
Qed.

Lemma still_present_is_state ops : fold_left step ops [] = still_present [] ops.
Proof. apply (fold_step_still_present ops []). Qed.

(** C4: from the empty store, after any sequence of [add_account] and
    [remove_account] calls with usernames in any case, no two stored
    accounts have the same handle (the username without case), and
    [get_accounts] lists the accounts that were inserted and not removed
    since, in the order of their insertion. *)
Theorem add_remove_unique_ordered (ops : list op) (w0 : world) :
  exists w,
    (ConfigManager_init FileMissing ;; run_ops ops ;; get_accounts) w0
    = (Ok (map account_of (still_present [] ops)), w)
    /\ stored (still_present [] ops) w
    /\ NoDup (map handle (still_present [] ops)).
Proof.
  set (w1 := with_config default_config w0).
  assert (H1 : stored [] w1) by reflexivity.
  exists (store (still_present [] ops) w1).
  rewrite <- still_present_is_state.
  split; [|split].
  - unfold bind at 1. simpl. fold w1.
    unfold bind at 1. rewrite (run_ops_stored ops [] w1 H1).
    apply get_accounts_stored, stored_store.
  - apply stored_store.
  - apply fold_step_unique. constructor.
Qed.

(** ** Loading and saving the configuration *)

Lemma dict_get_not_in k d : ~ In k (map fst d) -> dict_get k d = None.
Proof.
  induction d as [|[k' v] r IH]; simpl; auto.
  intros H. destruct (String.eqb k k') eqn:Hk.
  - apply String.eqb_eq in Hk. subst. tauto.
  - apply IH. tauto.
Qed.

Lemma dict_get_merge k b : forall a,
  NoDup (map fst b) ->
  dict_get k (dict_merge a b)
  = match dict_get k b with
    | Some v => Some v
    | None => dict_get k a
    end.
Proof.
  unfold dict_merge.
  induction b as [|[k0 v0] r IH]; intros a Hnd; simpl; auto.
  inversion Hnd as [|? ? Hnin Hr]; subst.
  rewrite (IH _ Hr).
  destruct (String.eqb k k0) eqn:Hk.
  - apply String.eqb_eq in Hk. subst k0.
    rewrite (dict_get_not_in _ _ Hnin). apply dict_get_set_eq.
  - destruct (dict_get k r); auto.
    apply dict_get_set_ne. intros ->. now rewrite String.eqb_refl in Hk.
Qed.

(** C8: [_load_config] never raises, whatever is found at the path of the
    configuration file, and so [ConfigManager.__init__] completes; when the
    file is missing, unreadable or does not parse to a JSON object, the
    configuration is the default one: no monitored account and a check
    interval of 60. *)
Theorem load_config_falls_back (f : file_state) (w : world) :
  exists c w',
    _load_config f w = (Ok c, w')
    /\ ConfigManager_init f w = (Ok tt, with_config c w')
    /\ (unusable f ->
        c = default_config
        /\ dict_get "monitored_accounts" c = Some (PList [])
        /\ dict_get "check_interval" c = Some (PInt 60)
        /\ get_accounts (with_config c w') = (Ok [], with_config c w')).
Proof.
  unfold ConfigManager_init, bind.
  destruct f as [| | |v]; simpl.
  1-3: eexists; eexists; repeat split; reflexivity.
  destruct v; simpl;
    (eexists; eexists; split; [reflexivity | split; [reflexivity |]]);
    intros H; try contradiction; repeat split; reflexivity.
Qed.

Lemma load_config_falls_back_witness :
  unusable FileMalformed
  /\ exists c w',
       _load_config FileMalformed fresh_world = (Ok c, w')
       /\ dict_get "monitored_accounts" c = Some (PList [])
       /\ dict_get "check_interval" c = Some (PInt 60).
Proof.
  split; [exact I |].
  destruct (load_config_falls_back FileMalformed fresh_world)
    as [c [w' [Hload [_ Hdef]]]].
  exists c, w'. destruct (Hdef I) as [_ [Ha [Hi _]]]. auto.
Defined.

(** C10: when the file parses to a JSON object, [_load_config] returns the
    file's keys merged over the defaults: looking a key up gives the
    file's value when the file has the key and the default otherwise.
    Nothing is logged. *)
Theorem load_config_merges (items : pydict) (w : world) (k : string) :
  NoDup (map fst items) ->
  exists c,
    _load_config (FileJson (PDict items)) w = (Ok c, w)
    /\ dict_get k c
       = match dict_get k items with
         | Some v => Some v
         | None => dict_get k default_config
         end.
Proof.
  intros Hnd. exists (dict_merge default_config items). split.
  - reflexivity.
  - now apply dict_get_merge.
Qed.

Lemma load_config_merges_witness :
  NoDup (map fst [("check_interval", PInt 30)])
  /\ exists c,
       _load_config (FileJson (PDict [("check_interval", PInt 30)])) fresh_world
       = (Ok c, fresh_world)
       /\ dict_get "monitored_accounts" c = Some (PList [])
       /\ dict_get "check_interval" c = Some (PInt 30).
Proof.
  assert (Hnd : NoDup (map fst [("check_interval", PInt 30)])).
  { constructor; [intros [] | constructor]. }
  split; [exact Hnd |].
  destruct (load_config_merges [("check_interval", PInt 30)] fresh_world
              "monitored_accounts" Hnd) as [c [Hload Ha]].
  destruct (load_config_merges [("check_interval", PInt 30)] fresh_world
              "check_interval" Hnd) as [c' [Hload' Hi]].
  exists c. repeat split; auto.
  rewrite Hload in Hload'. injection Hload' as <-. exact Hi.
Defined.

Lemma save_config_ok (E : env) (w : world) :
  storage E (saves w) = IoOk ->
  save_config E w
  = (Ok tt,
     mkWorld (config w) (Some (json_dumps (PDict (config w)))) (clock w)
             (trace w ++ [EvWrite (json_dumps (PDict (config w)))])
             (gets w) (sends w) (S (saves w))).
Proof.
  intros H. unfold save_config, try_except, bind. simpl. now rewrite H.
Qed.

(** C9: two calls of [save_config] with nothing in between, both of whose
    writes succeed, hand the same text to the file: the serialisation of
    the configuration, which neither call changes.  The file holds that
    text after the first call and after the second. *)
Theorem save_config_idempotent (E : env) (w : world) :
  storage E (saves w) = IoOk ->
  storage E (S (saves w)) = IoOk ->
  let text := json_dumps (PDict (config w)) in
  exists w1 w2,
    save_config E w = (Ok tt, w1)
    /\ save_config E w1 = (Ok tt, w2)
    /\ config w1 = config w /\ config w2 = config w
    /\ disk w1 = Some text /\ disk w2 = Some text
    /\ trace w2 = trace w ++ [EvWrite text; EvWrite text].
Proof.
  intros H1 H2 text.
  set (w1 := mkWorld (config w) (Some text) (clock w) (trace w ++ [EvWrite text])
                     (gets w) (sends w) (S (saves w))).
  exists w1. eexists.
  split; [exact (save_config_ok E w H1) |].
  split; [exact (save_config_ok E w1 H2) |].
  simpl. rewrite <- app_assoc. repeat split; reflexivity.
Qed.

Lemma save_config_idempotent_witness :
  exists w1 w2,
    save_config quiet_env bob_world = (Ok tt, w1)
    /\ save_config quiet_env w1 = (Ok tt, w2)
    /\ disk w1 = disk w2
    /\ disk w2 = Some (json_dumps (PDict (config bob_world))).
Proof.
  destruct (save_config_idempotent quiet_env bob_world eq_refl eq_refl)
    as [w1 [w2 [Ha [Hb [_ [_ [Hd1 [Hd2 _]]]]]]]].
  exists w1, w2. repeat split; auto. congruence.
Defined.

(** ** Time stamps *)

Lemma well_timed_app a : forall c b,
  well_timed c a -> well_timed (clock_after c a) b -> well_timed c (a ++ b).
Proof.
  induction a as [|ev r IH]; intros c b Ha Hb; simpl in *; auto.
  destruct ev; simpl in *; auto.
  - destruct Ha as [Hrate Ha]. split; auto.
    intros Ht. destruct (Hrate Ht) as [r' ->]. now exists (r' ++ b).
  - destruct Ha as [-> Ha]. auto.
Qed.

Lemma well_timed_drop a : forall c b,
  well_timed c (a ++ b) -> well_timed (clock_after c a) b.
Proof.
  induction a as [|ev r IH]; intros c b H; simpl in *; auto.
  destruct ev; simpl in *; auto; now apply IH.
Qed.

Lemma clock_after_app a : forall c b,
  clock_after c (a ++ b) = clock_after (clock_after c a) b.
Proof.
  induction a as [|ev r IH]; intros c b; simpl; auto.
  destruct ev; simpl; auto.
Qed.

Lemma well_timed_later evs : forall c,
  well_timed c evs ->
  Forall (fun ev => match ev with
                    | EvGet t _ _ => (c <= t)%Z
                    | _ => True
                    end) evs.
Proof.
  induction evs as [|ev r IH]; intros c H; constructor.
  - destruct ev; simpl in *; auto. lia.
  - destruct ev; simpl in H.
    + apply IH, H.
    + destruct H as [-> H]. now apply IH.
    + now apply IH.
    + apply IH in H. eapply Forall_impl; [|exact H].
      intros [] ?; auto. lia.
    + now apply IH.
    + now apply IH.
Qed.

Lemma well_timed_cooldown c evs : well_timed c evs -> cooldown_respected evs.
Proof.
  intros H pre t u s post ->.
  apply well_timed_drop in H. simpl in H.
  destruct H as [-> [Hrate H]].
  destruct (Hrate eq_refl) as [r' ->]. simpl in H.
  constructor; auto.
  apply well_timed_later in H.
  eapply Forall_impl; [|exact H]. intros [] ?; auto.
Qed.

(** *** Every function of the program is well timed *)

Lemma timed_ret {A} (a : A) : timed (ret a).
Proof. intros w. exists []. simpl. now rewrite app_nil_r. Qed.

Lemma timed_raise {A} e : timed (@raise A e).
Proof. intros w. exists []. simpl. now rewrite app_nil_r. Qed.

Lemma timed_lift {A} (r : result A) : timed (lift r).
Proof. intros w. exists []. simpl. now rewrite app_nil_r. Qed.

Lemma timed_bind {A B} (m : M A) (f : A -> M B) :
  timed m -> (forall a, timed (f a)) -> timed (bind m f).
Proof.
  intros Hm Hf w. unfold bind.
  destruct (Hm w) as [e1 [Ht1 [Hw1 Hc1]]].
  destruct (m w) as [[a|e] w1]; simpl in *.
  - destruct (Hf a w1) as [e2 [Ht2 [Hw2 Hc2]]].
    exists (e1 ++ e2). rewrite Ht2, Ht1, app_assoc, Hc2, Hc1, clock_after_app.
    split; auto. split; auto.
    apply well_timed_app; auto. now rewrite <- Hc1.
  - exists e1. auto.
Qed.

Lemma timed_try {A} (m : M A) (h : exn -> M A) :
  timed m -> (forall e, timed (h e)) -> timed (try_except m h).
Proof.
  intros Hm Hh w. unfold try_except.
  destruct (Hm w) as [e1 [Ht1 [Hw1 Hc1]]].
  destruct (m w) as [[a|e] w1]; simpl in *.
  - exists e1. auto.
  - destruct (Hh e w1) as [e2 [Ht2 [Hw2 Hc2]]].
    exists (e1 ++ e2). rewrite Ht2, Ht1, app_assoc, Hc2, Hc1, clock_after_app.
    split; auto. split; auto.
    apply well_timed_app; auto. now rewrite <- Hc1.
Qed.

Lemma timed_quiet {A} (m : M A) :
  (forall w, trace (snd (m w)) = trace w /\ clock (snd (m w)) = clock w) ->
  timed m.
Proof.
  intros H w. exists []. destruct (H w) as [-> ->].
  simpl. now rewrite app_nil_r.
Qed.

Lemma timed_log text : text <> rate_limit_text -> timed (log text).
Proof.
  intros Hne w. exists [EvLog text]. simpl. repeat split; auto.
  intros. contradiction.
Qed.

Lemma timed_sleep n : timed (sleep n).
Proof.
  intros w. exists [EvSleep n]. unfold sleep, bind. simpl. auto.
Qed.

Lemma timed_rate_limit {A} (a : A) :
  timed (log rate_limit_text ;; sleep 60 ;; ret a).
Proof.
  intros w. exists [EvLog rate_limit_text; EvSleep 60].
  unfold sleep, log, bind. simpl. rewrite <- app_assoc. simpl.
  repeat split; auto. intros _. now exists [].
Qed.

Lemma timed_request u s : timed (t <- now ;; emit (EvGet t u s)).
Proof.
  intros w. exists [EvGet (clock w) u s]. unfold bind. simpl. auto.
Qed.

Lemma timed_emit_send m b : timed (emit (EvSend m b)).
Proof. intros w. exists [EvSend m b]. simpl. auto. Qed.

Lemma timed_emit_watermark u a b : timed (emit (EvWatermark u a b)).
Proof. intros w. exists [EvWatermark u a b]. simpl. auto. Qed.

Lemma timed_emit_write t : timed (emit (EvWrite t)).
Proof. intros w. exists [EvWrite t]. simpl. auto. Qed.

Lemma timed_get_config : timed get_config.
Proof. now apply timed_quiet. Qed.

Lemma timed_set_config c : timed (set_config c).
Proof. now apply timed_quiet. Qed.

Lemma timed_set_disk d : timed (set_disk d).
Proof. now apply timed_quiet. Qed.

Lemma timed_next_get : timed next_get.
Proof. now apply timed_quiet. Qed.

Lemma timed_next_send : timed next_send.
Proof. now apply timed_quiet. Qed.

Lemma timed_next_save : timed next_save.
Proof. now apply timed_quiet. Qed.

Create HintDb timed.
#[local] Hint Resolve timed_ret timed_raise timed_lift timed_sleep
  timed_rate_limit timed_request timed_emit_send timed_emit_watermark
  timed_emit_write timed_get_config timed_set_config timed_set_disk
  timed_next_get timed_next_send timed_next_save : timed.

Lemma timed_request_then {A} u s (k : M A) :
  timed k -> timed (t <- now ;; emit (EvGet t u s) ;; k).
Proof.
  intros Hk w.
  exact (timed_bind (t <- now ;; emit (EvGet t u s)) (fun _ => k)
                    (timed_request u s) (fun _ => Hk) w).
Qed.

Ltac timed_step :=
  match goal with
  | |- timed (bind _ _) =>
      first [ apply timed_rate_limit
            | apply timed_request_then
            | apply timed_bind; [|intros] ]
  | |- timed (try_except _ _) => apply timed_try; [|intros]
  | |- timed (log _) => apply timed_log; unfold rate_limit_text; discriminate
  | |- timed (if ?b then _ else _) => destruct b
  | |- timed (match ?x with _ => _ end) => destruct x
  | |- timed _ => solve [auto with timed]
  end.

Ltac timed_auto := repeat timed_step.

Lemma timed_any_m f l : (forall x, timed (f x)) -> timed (any_m f l).
Proof. intros Hf. induction l; simpl; timed_auto. Qed.

Lemma timed_filter_m f l : (forall x, timed (f x)) -> timed (filter_m f l).
Proof. intros Hf. induction l; simpl; timed_auto. Qed.

Lemma timed_map_m {A} (f : pyval -> M A) l :
  (forall x, timed (f x)) -> timed (map_m f l).
Proof. intros Hf. induction l; simpl; timed_auto. Qed.

Lemma timed_for_each {A} (f : A -> M unit) l :
  (forall x, timed (f x)) -> timed (for_each f l).
Proof. intros Hf. induction l; simpl; timed_auto. Qed.

Lemma timed_config_getitem k : timed (config_getitem k).
Proof. unfold config_getitem. timed_auto. Qed.

Lemma timed_config_setitem k v : timed (config_setitem k v).
Proof. unfold config_setitem. timed_auto. Qed.

Lemma timed_username_is u acc : timed (username_is u acc).
Proof. unfold username_is. timed_auto. Qed.

#[local] Hint Resolve timed_config_getitem timed_config_setitem
  timed_username_is : timed.

Lemma timed_update_loop u i rest : forall seen, timed (update_loop u i seen rest).
Proof. induction rest; intros seen; simpl; timed_auto. Qed.

Lemma timed_update_last_tweet u i : timed (update_last_tweet u i).
Proof. unfold update_last_tweet. timed_auto. apply timed_update_loop. Qed.

Lemma timed_get_accounts : timed get_accounts.
Proof.
  unfold get_accounts. timed_auto. apply timed_map_m.
  intros x. unfold TwitterAccount_of. timed_auto.
Qed.

Lemma timed_save_config E : timed (save_config E).
Proof. unfold save_config. timed_auto. Qed.

Lemma timed_get_recent_tweets E u s : timed (get_recent_tweets E u s).
Proof. unfold get_recent_tweets. timed_auto. Qed.

Lemma timed_send_tweet_to_telegram E t u c : timed (send_tweet_to_telegram E t u c).
Proof. unfold send_tweet_to_telegram. timed_auto. Qed.

#[local] Hint Resolve timed_update_last_tweet timed_get_accounts
  timed_save_config timed_get_recent_tweets timed_send_tweet_to_telegram : timed.

Lemma timed_py_sort v : timed (py_sort tweet_key v).
Proof.
  unfold py_sort. destruct v; timed_auto.
  apply timed_map_m. intros x. unfold tweet_key. timed_auto.
Qed.

Lemma timed_check_account E a c : timed (check_account E a c).
Proof.
  unfold check_account. timed_auto.
  - apply timed_py_sort.
  - apply timed_for_each. intros x. unfold process_tweet. timed_auto.
Qed.

Lemma timed_py_sleep v : timed (py_sleep v).
Proof. unfold py_sleep. timed_auto. Qed.

Lemma timed_monitoring_round E c : timed (monitoring_round E c).
Proof.
  unfold monitoring_round. timed_auto.
  - apply timed_for_each. intros x. apply timed_check_account.
  - apply timed_py_sleep.
Qed.

Lemma timed_monitoring_loop E c n : timed (monitoring_loop E n c).
Proof.
  induction n; simpl; timed_auto. apply timed_monitoring_round.
Qed.

(** ** Rate limits *)

(** C7: a request for tweets that is answered with status 429 makes
    [get_recent_tweets] return the empty list, without raising, after a
    sleep of 60; and in every run of the monitoring loop each later
    request for the same user comes at least 60 time units after a request
    that met the rate limit. *)
Theorem rate_limit_cooldown (E : env) (uid since : pyval) (json : option pyval)
    (w : world) (rounds : nat) (chat : string) :
  (feed E (gets w) uid (since_param since) = HttpResponse 429 json ->
   exists w',
     get_recent_tweets E uid since w = (Ok (PList []), w')
     /\ trace w' = trace w ++ [EvGet (clock w) uid (since_param since);
                               EvLog rate_limit_text; EvSleep 60]
     /\ clock w' = (clock w + 60)%Z
     /\ config w' = config w)
  /\ exists evs,
       trace (snd (monitoring_loop E rounds chat w)) = trace w ++ evs
       /\ cooldown_respected evs.
Proof.
  split.
  - intros H. unfold get_recent_tweets, try_except, bind. simpl.
    rewrite H. simpl.
    eexists. split; [reflexivity |]. simpl.
    rewrite <- !app_assoc. repeat split; reflexivity.
  - destruct (timed_monitoring_loop E chat rounds w) as [evs [Ht [Hw _]]].
    exists evs. split; auto. eapply well_timed_cooldown; eauto.
Qed.

Lemma rate_limit_cooldown_witness :
  feed limited_env (gets fresh_world) (PStr "77") (since_param (PStr "2"))
  = HttpResponse 429 None
  /\ exists w',
       get_recent_tweets limited_env (PStr "77") (PStr "2") fresh_world
       = (Ok (PList []), w')
       /\ clock w' = 60%Z.
Proof.
  split; [reflexivity |].
  destruct (rate_limit_cooldown limited_env (PStr "77") (PStr "2") None
              fresh_world 0 "chat") as [Hlocal _].
  destruct (Hlocal eq_refl) as [w' [Hget [_ [Hclock _]]]].
  exists w'. split; [exact Hget | exact Hclock].
Defined.

(** ** Failure isolation *)

Lemma try_except_log (body : M unit) (text : string) (w : world) :
  fst (try_except body (fun _ => log text) w) = Ok tt.
Proof.
  unfold try_except. destruct (body w) as [[[]|e] w']; reflexivity.
Qed.

Lemma check_account_returns E a chat w : fst (check_account E a chat w) = Ok tt.
Proof. apply try_except_log. Qed.

Lemma for_each_check_account_returns E chat accounts : forall w,
  fst (for_each (fun x => check_account E x chat) accounts w) = Ok tt.
Proof.
  induction accounts as [|a r IH]; intros w; simpl; auto.
  unfold bind. pose proof (check_account_returns E a chat w) as H.
  destruct (check_account E a chat w) as [[[]|e] w']; simpl in H.
  - apply IH.
  - discriminate.
Qed.

(** C6: [check_account] returns normally for every account, chat and
    state of the world, whatever is raised inside it, and so does the pass
    over all accounts of a round.  When the request for the tweets of an
    account fails, [get_recent_tweets] returns the empty list; the call of
    [check_account] then sends nothing and leaves the configuration as it
    was, and the accounts after it in the round are checked as if it had
    not been there. *)
Theorem check_account_isolates (E : env) (a : TwitterAccount) (chat : string)
    (w : world) :
  fst (check_account E a chat w) = Ok tt
  /\ (forall accounts,
        fst (for_each (fun x => check_account E x chat) accounts w) = Ok tt)
  /\ (feed E (gets w) (user_id a) (since_param (last_tweet_id a)) = HttpFails ->
      exists w',
        get_recent_tweets E (user_id a) (last_tweet_id a) w = (Ok (PList []), w')
        /\ check_account E a chat w = (Ok tt, w')
        /\ config w' = config w /\ disk w' = disk w
        /\ sends w' = sends w /\ clock w' = clock w
        /\ forall rest,
             for_each (fun x => check_account E x chat) (a :: rest) w
             = for_each (fun x => check_account E x chat) rest w').
Proof.
  split; [apply check_account_returns |].
  split; [intros; apply for_each_check_account_returns |].
  intros H.
  assert (Hget : exists w',
             get_recent_tweets E (user_id a) (last_tweet_id a) w = (Ok (PList []), w')
             /\ config w' = config w /\ disk w' = disk w
             /\ sends w' = sends w /\ clock w' = clock w).
  { unfold get_recent_tweets, try_except, bind. simpl.
    rewrite H. simpl.
    eexists. split; [reflexivity |]. repeat split; reflexivity. }
  destruct Hget as [w' [Hget [Hc [Hd [Hs Hk]]]]].
  exists w'.
  assert (Hcheck : check_account E a chat w = (Ok tt, w')).
  { unfold check_account, try_except, bind. now rewrite Hget. }
  repeat split; auto.
  intros rest. simpl. unfold bind. now rewrite Hcheck.
Qed.

Lemma check_account_isolates_witness :
  feed offline_env (gets bob_world) (user_id (account_of bob))
       (since_param (last_tweet_id (account_of bob))) = HttpFails
  /\ exists w',
       check_account offline_env (account_of bob) "chat" bob_world = (Ok tt, w')
       /\ config w' = config bob_world.
Proof.
  split; [reflexivity |].
  destruct (check_account_isolates offline_env (account_of bob) "chat" bob_world)
    as [_ [_ Hfail]].
  destruct (Hfail eq_refl) as [w' [_ [Hcheck [Hc _]]]].
  exists w'. split; [exact Hcheck | exact Hc].
Defined.

(** ** Sorting *)

Lemma insert_by_key_perm {A} (x : Z * A) l : Permutation (x :: l) (insert_by_key x l).
Proof.
  induction l as [|y r IH]; simpl; auto.
  destruct (fst x <=? fst y)%Z; auto.
  rewrite perm_swap. now constructor.
Qed.

Lemma sort_by_key_perm {A} (l : list (Z * A)) : Permutation l (sort_by_key l).
Proof.
  induction l as [|x r IH]; simpl; auto.
  rewrite <- insert_by_key_perm. now constructor.
Qed.

Lemma insert_by_key_sorted {A} (x : Z * A) l :
  StronglySorted key_le l -> StronglySorted key_le (insert_by_key x l).
Proof.
  induction 1 as [|y r Hs IH Hall]; simpl.
  - repeat constructor.
  - destruct (fst x <=? fst y)%Z eqn:Hxy.
    + apply Z.leb_le in Hxy. constructor.
      * now constructor.
      * constructor; auto.
        eapply Forall_impl; [|exact Hall]. unfold key_le. intros; lia.
    + apply Z.leb_gt in Hxy. constructor; auto.
      eapply Permutation_Forall; [apply insert_by_key_perm |].
      constructor; auto. unfold key_le. lia.
Qed.

Lemma sort_by_key_sorted {A} (l : list (Z * A)) : StronglySorted key_le (sort_by_key l).
Proof.
  induction l; simpl; [constructor | now apply insert_by_key_sorted].
Qed.

Lemma sorted_tweets_perm tweets : Permutation tweets (sorted_tweets tweets).
Proof.
  unfold sorted_tweets.
  rewrite <- (sort_by_key_perm (combine (map number_or_zero tweets) tweets)).
  replace (map snd (combine (map number_or_zero tweets) tweets)) with tweets; auto.
  induction tweets; simpl; congruence.
Qed.

Lemma sorted_tweets_sorted tweets :
  StronglySorted (fun a b => (number_or_zero a <= number_or_zero b)%Z)
                 (sorted_tweets tweets).
Proof.
  unfold sorted_tweets.
  set (pairs := combine (map number_or_zero tweets) tweets).
  assert (Hkey : Forall (fun p => fst p = number_or_zero (snd p)) (sort_by_key pairs)).
  { eapply Permutation_Forall; [apply sort_by_key_perm |].
    subst pairs. induction tweets; simpl; constructor; auto. }
  pose proof (sort_by_key_sorted pairs) as Hs.
  induction Hs as [|p r Hs IH Hall]; simpl; constructor.
  - apply IH. now inversion Hkey.
  - inversion Hkey as [|? ? Hp Hr]; subst.
    rewrite Forall_map. rewrite Forall_forall in *.
    intros q Hq. unfold key_le in Hall.
    rewrite <- Hp, <- (Hr q Hq). now apply Hall.
Qed.

(** ** One account, one round *)

Lemma tweet_key_number t n w :
  tweet_number t = Some n -> tweet_key t w = (Ok n, w).
Proof.
  unfold tweet_number, tweet_key, bind, lift.
  destruct (py_getitem t "id") as [v|]; [|discriminate].
  destruct (py_int v); [|discriminate]. congruence.
Qed.

Lemma map_m_tweet_key tweets w :
  Forall (fun t => tweet_number t <> None) tweets ->
  map_m tweet_key tweets w = (Ok (map number_or_zero tweets), w).
Proof.
  induction 1 as [|t r Ht Hr IH]; simpl; auto.
  unfold bind at 1. unfold number_or_zero at 1.
  destruct (tweet_number t) as [n|] eqn:Hn; [|congruence].
  rewrite (tweet_key_number t n w Hn). unfold bind. now rewrite IH.
Qed.

Lemma py_sort_tweets tweets w :
  Forall (fun t => tweet_number t <> None) tweets ->
  py_sort tweet_key (PList tweets) w = (Ok (sorted_tweets tweets), w).
Proof.
  intros H. unfold py_sort, bind. now rewrite (map_m_tweet_key tweets w H).
Qed.

Lemma numbered_tweet t :
  tweet_number t <> None ->
  exists d, t = PDict d /\ dict_get "id" d = Some (tweet_id t).
Proof.
  unfold tweet_number. destruct t; simpl; try congruence.
  intros H. exists d. split; auto.
  unfold dict_get_default. destruct (dict_get "id" d); congruence.
Qed.

Lemma send_tweet_to_telegram_dict E d uname chat w :
  let m := message_of chat uname (PDict d) in
  send_tweet_to_telegram E (PDict d) uname chat w
  = (Ok tt,
     mkWorld (config w) (disk w) (clock w)
             (trace w ++ [EvSend m (telegram E (sends w) m);
                          EvLog (if telegram E (sends w) m
                                 then "Forwarded tweet" else "Failed to send tweet")])
             (gets w) (S (sends w)) (saves w)).
Proof.
  unfold send_tweet_to_telegram, try_except, bind. simpl.
  destruct (telegram E (sends w) _); unfold log, emit, raise, with_trace; simpl;
    now rewrite <- app_assoc.
Qed.

Lemma update_loop_entries u id rest : forall seen w,
  update_loop (PStr u) id (map entry_dict seen) (map entry_dict rest) w
  = match find (same_user u) rest with
    | Some e =>
        (Ok tt,
         store (seen ++ set_last u id rest)
               (with_trace (trace w ++ [EvWatermark (entry_username e) (entry_last e) id]) w))
    | None => (Ok tt, w)
    end.
Proof.
  induction rest as [|e r IH]; intros seen w; simpl; auto.
  unfold bind at 1. rewrite username_is_entry.
  destruct (same_user u e) eqn:Hu.
  - unfold bind, lift, emit, config_setitem, get_config, set_config. simpl.
    unfold store. simpl. now rewrite map_app.
  - replace (map entry_dict seen ++ [entry_dict e])
      with (map entry_dict (seen ++ [e])) by now rewrite map_app.
    rewrite IH. destruct (find (same_user u) r); auto.
    now rewrite <- app_assoc.
Qed.

Lemma update_last_tweet_stored u id accs w :
  stored accs w ->
  update_last_tweet (PStr u) id w
  = match find (same_user u) accs with
    | Some e =>
        (Ok tt,
         store (set_last u id accs)
               (with_trace (trace w ++ [EvWatermark (entry_username e) (entry_last e) id]) w))
    | None => (Ok tt, w)
    end.
Proof.
  intros H. unfold update_last_tweet.
  unfold bind at 1. rewrite (config_getitem_stored _ _ H).
  unfold bind at 1. simpl.
  apply (update_loop_entries u id accs [] w).
Qed.

Lemma find_set_last u id accs :
  find (same_user u) (set_last u id accs)
  = option_map (fun e => mkEntry (entry_username e) (entry_user_id e) id)
               (find (same_user u) accs).
Proof.
  induction accs as [|e r IH]; simpl; auto.
  destruct (same_user u e) eqn:Hu; simpl.
  - unfold same_user, handle in *. simpl. now rewrite Hu.
  - now rewrite Hu.
Qed.

Lemma set_last_set_last u id1 id2 accs :
  set_last u id2 (set_last u id1 accs) = set_last u id2 accs.
Proof.
  induction accs as [|e r IH]; simpl; auto.
  destruct (same_user u e) eqn:Hu; simpl.
  - unfold same_user, handle in *. simpl. now rewrite Hu.
  - rewrite Hu. now rewrite IH.
Qed.

Lemma map_handle_set_last u id accs :
  map handle (set_last u id accs) = map handle accs.
Proof.
  induction accs as [|e r IH]; simpl; auto.
  destruct (same_user u e); simpl; [reflexivity | congruence].
Qed.

Lemma process_tweet_stored E a chat t e accs w :
  username a = PStr (entry_username e) ->
  stored accs w ->
  find (same_user (entry_username e)) accs = Some e ->
  tweet_number t <> None ->
  let m := message_of chat (PStr (entry_username e)) t in
  process_tweet E a chat t w
  = (Ok tt,
     mkWorld (config (store (set_last (entry_username e) (tweet_id t) accs) w))
             (disk w) (clock w + 1)
             (trace w ++ [EvSend m (telegram E (sends w) m);
                          EvLog (if telegram E (sends w) m
                                 then "Forwarded tweet" else "Failed to send tweet");
                          EvWatermark (entry_username e) (entry_last e) (tweet_id t);
                          EvSleep 1])
             (gets w) (S (sends w)) (saves w)).
Proof.
  intros Ha Hst Hfind Hnum m.
  destruct (numbered_tweet t Hnum) as [d [-> Hid]].
  unfold process_tweet. rewrite Ha.
  unfold bind at 1. rewrite send_tweet_to_telegram_dict.
  unfold bind at 1. unfold lift, py_getitem. rewrite Hid.
  unfold bind at 1.
  rewrite (update_last_tweet_stored _ _ accs); [|exact Hst].
  rewrite Hfind. unfold sleep, bind, emit, tick, store, with_trace, with_config,
    with_clock. simpl. rewrite <- !app_assoc. reflexivity.
Qed.

Lemma for_each_process_tweet E a chat ts : forall e accs w,
  username a = PStr (entry_username e) ->
  stored accs w ->
  find (same_user (entry_username e)) accs = Some e ->
  Forall (fun t => tweet_number t <> None) ts ->
  for_each (process_tweet E a chat) ts w
  = (Ok tt,
     mkWorld (config (store (fold_left (fun s t => set_last (entry_username e) (tweet_id t) s)
                                       ts accs) w))
             (disk w) (clock w + Z.of_nat (List.length ts))
             (trace w ++ delivery_events E chat (entry_username e) (sends w)
                                         (entry_last e) ts)
             (gets w) (sends w + List.length ts) (saves w)).
Proof.
  induction ts as [|t r IH]; intros e accs w Ha Hst Hfind Hnum.
  - cbn [for_each fold_left List.length delivery_events Z.of_nat].
    rewrite (store_same _ _ Hst), app_nil_r, Z.add_0_r, Nat.add_0_r.
    now destruct w.
  - inversion Hnum as [|? ? Ht Hr]; subst. simpl for_each.
    unfold bind. rewrite (process_tweet_stored E a chat t e accs w Ha Hst Hfind Ht).
    set (e' := mkEntry (entry_username e) (entry_user_id e) (tweet_id t)).
    set (accs' := set_last (entry_username e) (tweet_id t) accs).
    erewrite (IH e' accs'); auto.
    + simpl. unfold store, with_config. simpl.
      rewrite dict_set_set, <- app_assoc. simpl.
      f_equal. f_equal; try reflexivity; lia.
    + unfold stored. simpl. apply dict_get_set_eq.
    + subst accs' e'. rewrite find_set_last, Hfind. reflexivity.
Qed.

Lemma fold_set_last u ts : forall accs,
  fold_left (fun s t => set_last u (tweet_id t) s) ts accs
  = match ts with
    | [] => accs
    | _ => set_last u (tweet_id (List.last ts PNone)) accs
    end.
Proof.
  induction ts as [|t r IH]; intros accs; simpl fold_left; auto.
  rewrite IH. destruct r as [|t' r']; auto.
  now rewrite set_last_set_last.
Qed.

Lemma get_recent_tweets_data E uid since body w :
  feed E (gets w) uid (since_param since) = HttpResponse 200 (Some (PDict body)) ->
  get_recent_tweets E uid since w
  = (Ok (dict_get_default "data" (PList []) body),
     mkWorld (config w) (disk w) (clock w)
             (trace w ++ [EvGet (clock w) uid (since_param since)])
             (S (gets w)) (sends w) (saves w)).
Proof.
  intros H. unfold get_recent_tweets, try_except, bind. simpl. now rewrite H.
Qed.

(** What [check_account] does when the feed answers with a list of tweets
    whose ids are numbers and the account is in the store. *)
Lemma check_account_stored E e accs chat w body tweets :
  stored accs w ->
  find (same_user (entry_username e)) accs = Some e ->
  feed E (gets w) (entry_user_id e) (since_param (entry_last e))
  = HttpResponse 200 (Some (PDict body)) ->
  dict_get "data" body = Some (PList tweets) ->
  Forall (fun t => tweet_number t <> None) tweets ->
  check_account E (account_of e) chat w
  = (Ok tt,
     mkWorld (config (store (fold_left (fun s t => set_last (entry_username e) (tweet_id t) s)
                                       (sorted_tweets tweets) accs) w))
             (disk w) (clock w + Z.of_nat (List.length tweets))
             (trace w ++ EvGet (clock w) (entry_user_id e) (since_param (entry_last e))
                      :: delivery_events E chat (entry_username e) (sends w)
                                         (entry_last e) (sorted_tweets tweets))
             (S (gets w)) (sends w + List.length tweets) (saves w)).
Proof.
  intros Hst Hfind Hfeed Hdata Hnum.
  unfold check_account, try_except. unfold bind at 1. simpl user_id.
  simpl last_tweet_id.
  rewrite (get_recent_tweets_data E _ _ body w Hfeed).
  unfold dict_get_default. rewrite Hdata.
  set (w0 := mkWorld _ _ _ _ _ _ _).
  assert (Hst0 : stored accs w0) by exact Hst.
  destruct tweets as [|t r].
  - simpl. unfold ret.
    rewrite (dict_set_same _ _ _ Hst), Z.add_0_r, Nat.add_0_r. reflexivity.
  - change (py_truthy (PList (t :: r))) with true. cbv beta iota.
    unfold bind at 1. rewrite (py_sort_tweets _ w0 Hnum).
    rewrite (for_each_process_tweet E (account_of e) chat _ e accs w0); auto.
    + rewrite <- (Permutation_length (sorted_tweets_perm (t :: r))).
      subst w0. unfold store, with_config. simpl.
      rewrite <- app_assoc. reflexivity.
    + eapply Permutation_Forall; [apply sorted_tweets_perm | exact Hnum].
Qed.

Lemma sends_of_delivery_events E chat name ts : forall n old,
  map fst (sends_of (delivery_events E chat name n old ts))
  = map (message_of chat (PStr name)) ts.
Proof.
  induction ts as [|t r IH]; intros n old; simpl; auto. now rewrite IH.
Qed.

Lemma watermarks_of_delivery_events E chat name ts : forall n old,
  watermarks_of (delivery_events E chat name n old ts) = map tweet_id ts.
Proof.
  induction ts as [|t r IH]; intros n old; simpl; auto. now rewrite IH.
Qed.

Lemma message_of_tweet_id chat u t :
  tweet_number t <> None -> msg_tweet_id (message_of chat u t) = tweet_id t.
Proof.
  intros H. destruct (numbered_tweet t H) as [d [-> Hid]]. simpl in *.
  unfold dict_get_default in *. destruct (dict_get "id" d); congruence.
Qed.

Lemma watermark_after_round u accs ts :
  ts <> [] ->
  find (same_user u) accs <> None ->
  watermark u (fold_left (fun s t => set_last u (tweet_id t) s) ts accs)
  = Some (tweet_id (List.last ts PNone)).
Proof.
  intros Hts Hfind. rewrite fold_set_last.
  destruct ts as [|t r]; [congruence |].
  unfold watermark. rewrite find_set_last.
  destruct (find (same_user u) accs); [reflexivity | congruence].
Qed.

(** The round of one account, in full. *)
Lemma check_account_round (E : env) (e : entry) (accs : list entry)
    (chat : string) (w : world) (body : pydict) (tweets : list pyval) :
  stored accs w ->
  find (same_user (entry_username e)) accs = Some e ->
  feed E (gets w) (entry_user_id e) (since_param (entry_last e))
  = HttpResponse 200 (Some (PDict body)) ->
  dict_get "data" body = Some (PList tweets) ->
  Forall (fun t => tweet_number t <> None) tweets ->
  let sorted := sorted_tweets tweets in
  exists w' evs accs',
    check_account E (account_of e) chat w = (Ok tt, w')
    /\ trace w' = trace w ++ evs
    /\ stored accs' w'
    /\ Permutation tweets sorted
    /\ StronglySorted (fun a b => (number_or_zero a <= number_or_zero b)%Z) sorted
    /\ evs = EvGet (clock w) (entry_user_id e) (since_param (entry_last e))
             :: delivery_events E chat (entry_username e) (sends w) (entry_last e) sorted
    /\ map fst (sends_of evs) = map (message_of chat (PStr (entry_username e))) sorted
    /\ map fst (sent_ids evs) = map tweet_id sorted
    /\ watermarks_of evs = map tweet_id sorted
    /\ (tweets <> [] ->
        watermark (entry_username e) accs' = Some (tweet_id (List.last sorted PNone))).
Proof.
  intros Hst Hfind Hfeed Hdata Hnum sorted.
  rewrite (check_account_stored E e accs chat w body tweets Hst Hfind Hfeed Hdata Hnum).
  fold sorted.
  assert (Hperm : Permutation tweets sorted) by apply sorted_tweets_perm.
  eexists. eexists.
  exists (fold_left (fun s t => set_last (entry_username e) (tweet_id t) s) sorted accs).
  split; [reflexivity |]. split; [reflexivity |].
  split; [apply stored_store |].
  split; [exact Hperm |].
  split; [apply sorted_tweets_sorted |].
  split; [reflexivity |].
  split; [apply sends_of_delivery_events |].
  split.
  { unfold sent_ids. simpl. rewrite map_map. simpl.
    rewrite <- (map_map fst msg_tweet_id), sends_of_delivery_events, map_map.
    apply map_ext_in. intros t Ht. apply message_of_tweet_id.
    rewrite Forall_forall in Hnum. apply Hnum.
    eapply Permutation_in; [symmetry; exact Hperm | exact Ht]. }
  split; [apply watermarks_of_delivery_events |].
  intros Hne. apply watermark_after_round.
  - intros Hs. apply Hne. apply Permutation_nil. now rewrite <- Hs.
  - congruence.
Qed.

(** C2: when the feed answers with a list of tweets whose ids are numbers,
    [check_account] handles the tweets in ascending order of the numeric
    value of their ids (a sorted rearrangement of what was fetched): the
    messages go to Telegram in that order, each followed, before the next
    message, by the write of that tweet's id to the watermark, and after
    a non-empty list the stored watermark is the id of the last tweet in
    that order. *)
Theorem check_account_delivers_in_order (E : env) (e : entry) (accs : list entry)
    (chat : string) (w : world) (body : pydict) (tweets : list pyval) :
  stored accs w ->
  find (same_user (entry_username e)) accs = Some e ->
  feed E (gets w) (entry_user_id e) (since_param (entry_last e))
  = HttpResponse 200 (Some (PDict body)) ->
  dict_get "data" body = Some (PList tweets) ->
  Forall (fun t => tweet_number t <> None) tweets ->
  let sorted := sorted_tweets tweets in
  exists w' evs accs',
    check_account E (account_of e) chat w = (Ok tt, w')
    /\ trace w' = trace w ++ evs
    /\ stored accs' w'
    /\ Permutation tweets sorted
    /\ StronglySorted (fun a b => (number_or_zero a <= number_or_zero b)%Z) sorted
    /\ evs = EvGet (clock w) (entry_user_id e) (since_param (entry_last e))
             :: delivery_events E chat (entry_username e) (sends w) (entry_last e) sorted
    /\ map fst (sends_of evs) = map (message_of chat (PStr (entry_username e))) sorted
    /\ watermarks_of evs = map tweet_id sorted
    /\ (tweets <> [] ->
        watermark (entry_username e) accs' = Some (tweet_id (List.last sorted PNone))).
Proof.
  intros Hst Hfind Hfeed Hdata Hnum sorted.
  destruct (check_account_round E e accs chat w body tweets
              Hst Hfind Hfeed Hdata Hnum)
    as [w' [evs [accs' [Hrun [Htr [Hst' [Hperm [Hsort [Hevs [Hsends [_ [Hwm Hlast]]]]]]]]]]]].
  exists w', evs, accs'. repeat (split; [assumption |]). assumption.
Qed.


Lemma check_account_delivers_in_order_witness :
  stored [bob] bob_world
  /\ exists w' evs accs',
       check_account example_env (account_of bob) "chat" bob_world = (Ok tt, w')
       /\ trace w' = trace bob_world ++ evs
       /\ stored accs' w'
       /\ sent_ids evs = [(PStr "3", true); (PStr "5", true); (PStr "9", true)]
       /\ watermarks_of evs = [PStr "3"; PStr "5"; PStr "9"]
       /\ watermark "Bob" accs' = Some (PStr "9").
Proof.
  split; [reflexivity |].
  assert (Hnum : Forall (fun t => tweet_number t <> None) [tw "5"; tw "3"; tw "9"]).
  { repeat constructor; discriminate. }
  destruct (check_account_delivers_in_order example_env bob [bob] "chat" bob_world
              [("data", PList [tw "5"; tw "3"; tw "9"])] [tw "5"; tw "3"; tw "9"]
              eq_refl eq_refl eq_refl eq_refl Hnum)
    as [w' [evs [accs' [Hrun [Htr [Hst [_ [_ [Hevs [_ [Hwm Hlast]]]]]]]]]]].
  exists w', evs, accs'.
  split; [exact Hrun |]. split; [exact Htr |]. split; [exact Hst |].
  split; [rewrite Hevs; reflexivity |].
  split; [exact Hwm |].
  apply Hlast. discriminate.
Defined.

(** ** Deliveries that fail *)

Lemma sent_ids_cons_other ev evs :
  (forall m b, ev <> EvSend m b) -> sent_ids (ev :: evs) = sent_ids evs.
Proof.
  intros H. destruct ev; try reflexivity. now elim (H m accepted).
Qed.

Lemma delivery_events_attempts E chat name ts : forall n old0,
  Forall (fun t => tweet_number t <> None) ts ->
  advances_after_attempt (delivery_events E chat name n old0 ts).
Proof.
  induction ts as [|t r IH]; intros n old0 Hnum pre u old new post Heq.
  - destruct pre; discriminate.
  - inversion Hnum as [|? ? Ht Hr]; subst. simpl in Heq.
    destruct pre as [|e1 pre]; [discriminate |].
    destruct pre as [|e2 pre]; [discriminate |].
    destruct pre as [|e3 pre].
    + injection Heq as <- <- _ _ <- _.
      exists (telegram E n (message_of chat (PStr name) t)).
      left. simpl. now rewrite message_of_tweet_id.
    + destruct pre as [|e4 pre]; [discriminate |].
      injection Heq as <- <- <- <- Heq.
      destruct (IH _ _ Hr pre u old new post Heq) as [b Hb].
      exists b. right. exact Hb.
Qed.

(** C1, as the code has it: when the feed answers with a list of tweets
    whose ids are numbers, [check_account] writes the id of every tweet it
    handles to the watermark after handing the tweet's message to
    Telegram, whether Telegram accepts the message or not: the ids
    written are the ids of the messages, in the same order, and after a
    non-empty list the stored watermark is the id of the last tweet in
    ascending order, whatever the outcomes of the deliveries. *)
Theorem watermark_follows_every_attempt (E : env) (e : entry) (accs : list entry)
    (chat : string) (w : world) (body : pydict) (tweets : list pyval) :
  stored accs w ->
  find (same_user (entry_username e)) accs = Some e ->
  feed E (gets w) (entry_user_id e) (since_param (entry_last e))
  = HttpResponse 200 (Some (PDict body)) ->
  dict_get "data" body = Some (PList tweets) ->
  Forall (fun t => tweet_number t <> None) tweets ->
  exists w' evs accs',
    check_account E (account_of e) chat w = (Ok tt, w')
    /\ trace w' = trace w ++ evs
    /\ stored accs' w'
    /\ advances_after_attempt evs
    /\ watermarks_of evs = map fst (sent_ids evs)
    /\ List.length (sent_ids evs) = List.length tweets
    /\ (tweets <> [] ->
        watermark (entry_username e) accs'
        = Some (tweet_id (List.last (sorted_tweets tweets) PNone))).
Proof.
  intros Hst Hfind Hfeed Hdata Hnum.
  destruct (check_account_round E e accs chat w body tweets
              Hst Hfind Hfeed Hdata Hnum)
    as [w' [evs [accs' [Hrun [Htr [Hst' [Hperm [_ [Hevs [_ [Hids [Hwm Hlast]]]]]]]]]]]].
  exists w', evs, accs'.
  repeat (split; [assumption |]).
  assert (Hnum' : Forall (fun t => tweet_number t <> None) (sorted_tweets tweets))
    by (eapply Permutation_Forall; eauto).
  split; [|split; [|split]]; auto.
  - intros pre u old new post Heq. rewrite Hevs in Heq.
    destruct pre as [|e0 pre]; [discriminate |].
    injection Heq as <- Heq.
    destruct (delivery_events_attempts E chat _ _ _ _ Hnum' pre u old new post Heq)
      as [b Hb].
    exists b. exact Hb.
  - congruence.
  - rewrite <- (length_map fst), Hids, length_map.
    symmetry. now apply Permutation_length.
Qed.

Lemma watermark_follows_every_attempt_witness :
  stored [bob] bob_world
  /\ exists w' evs accs',
       check_account flaky_env (account_of bob) "chat" bob_world = (Ok tt, w')
       /\ trace w' = trace bob_world ++ evs
       /\ stored accs' w'
       /\ watermark "Bob" accs' = Some (PStr "9").
Proof.
  split; [reflexivity |].
  assert (Hnum : Forall (fun t => tweet_number t <> None) [tw "5"; tw "3"; tw "9"]).
  { repeat constructor; discriminate. }
  destruct (watermark_follows_every_attempt flaky_env bob [bob] "chat" bob_world
              [("data", PList [tw "5"; tw "3"; tw "9"])] [tw "5"; tw "3"; tw "9"]
              eq_refl eq_refl eq_refl eq_refl Hnum)
    as [w' [evs [accs' [Hrun [Htr [Hst [_ [_ [_ Hlast]]]]]]]]].
  exists w', evs, accs'.
  repeat (split; [assumption |]).
  apply Hlast. discriminate.
Defined.

(** C1 as stated fails: the delivery of tweet 5 fails after tweet 3 was
    delivered, and yet the watermark moves on to 5 and then to 9; it is 9
    after the round, not 3, and the next round asks the feed for what is
    newer than 9, so that tweet 5 is not sent again. *)
Lemma watermark_passes_failed_delivery :
  let w1 := snd (check_account flaky_env (account_of bob) "chat" bob_world) in
  let w2 := snd (monitoring_loop flaky_env 2 "chat" bob_world) in
  sent_ids (trace w1) = [(PStr "3", true); (PStr "5", false); (PStr "9", true)]
  /\ watermarks_of (trace w1) = [PStr "3"; PStr "5"; PStr "9"]
  /\ stored [mkEntry "Bob" (PStr "77") (PStr "9")] w1
  /\ ~ stored [mkEntry "Bob" (PStr "77") (PStr "3")] w1
  /\ ~ advances_only_after_delivery (trace w1)
  /\ sent_ids (trace w2) = [(PStr "3", true); (PStr "5", false); (PStr "9", true)].
Proof.
  cbv zeta.
  split; [vm_compute; reflexivity |].
  split; [vm_compute; reflexivity |].
  split; [vm_compute; reflexivity |].
  split; [vm_compute; discriminate |].
  split; [|vm_compute; reflexivity].
  remember (trace (snd (check_account flaky_env (account_of bob) "chat" bob_world)))
    as tr eqn:Htr.
  vm_compute in Htr. subst tr. intros H.
  match type of H with
  | advances_only_after_delivery
      (?e1 :: ?e2 :: ?e3 :: ?e4 :: ?e5 :: ?e6 :: ?e7 :: EvWatermark ?u ?o ?n :: ?post) =>
      specialize (H [e1; e2; e3; e4; e5; e6; e7] u o n post eq_refl)
  end.
  vm_compute in H. destruct H as [H | [H | []]]; discriminate.
Qed.

(** ** Watermarks over time *)

Lemma quiet_app a b : quiet a -> quiet b -> quiet (a ++ b).
Proof. unfold quiet. intros. apply Forall_app. auto. Qed.

Lemma quiet_never_lowered evs : quiet evs -> never_lowered evs.
Proof.
  unfold quiet, never_lowered. apply Forall_impl. intros []; tauto.
Qed.

Lemma quiet_sent_ids evs : quiet evs -> sent_ids evs = [].
Proof.
  unfold sent_ids. induction 1 as [|ev r Hev Hr IH]; auto.
  destruct ev; simpl in *; auto. contradiction.
Qed.

Lemma harmless_quiet_step {A} (m : M A) :
  (forall w, config (snd (m w)) = config w /\ trace (snd (m w)) = trace w) ->
  harmless m.
Proof.
  intros H w. destruct (H w) as [Hc Ht]. split; auto.
  exists []. rewrite app_nil_r. split; [auto | constructor].
Qed.

Lemma harmless_ret {A} (a : A) : harmless (ret a).
Proof. now apply harmless_quiet_step. Qed.

Lemma harmless_raise {A} e : harmless (@raise A e).
Proof. now apply harmless_quiet_step. Qed.

Lemma harmless_bind_raise {A B} e (f : A -> M B) : harmless (bind (raise e) f).
Proof. now apply harmless_quiet_step. Qed.

Lemma harmless_lift {A} (r : result A) : harmless (lift r).
Proof. now apply harmless_quiet_step. Qed.

Lemma harmless_bind {A B} (m : M A) (f : A -> M B) :
  harmless m -> (forall a, harmless (f a)) -> harmless (bind m f).
Proof.
  intros Hm Hf w. unfold bind.
  destruct (Hm w) as [Hc1 [e1 [Ht1 Hq1]]].
  destruct (m w) as [[a|e] w1]; simpl in *.
  - destruct (Hf a w1) as [Hc2 [e2 [Ht2 Hq2]]].
    split; [congruence |].
    exists (e1 ++ e2). rewrite Ht2, Ht1, app_assoc. auto using quiet_app.
  - eauto.
Qed.

Lemma harmless_try {A} (m : M A) (h : exn -> M A) :
  harmless m -> (forall e, harmless (h e)) -> harmless (try_except m h).
Proof.
  intros Hm Hh w. unfold try_except.
  destruct (Hm w) as [Hc1 [e1 [Ht1 Hq1]]].
  destruct (m w) as [[a|e] w1]; simpl in *.
  - eauto.
  - destruct (Hh e w1) as [Hc2 [e2 [Ht2 Hq2]]].
    split; [congruence |].
    exists (e1 ++ e2). rewrite Ht2, Ht1, app_assoc. auto using quiet_app.
Qed.

Lemma harmless_emit ev :
  quiet [ev] -> harmless (emit ev).
Proof. intros H w. split; auto. exists [ev]. auto. Qed.

Lemma harmless_log text : harmless (log text).
Proof. apply harmless_emit. repeat constructor. Qed.

Lemma harmless_sleep n : harmless (sleep n).
Proof.
  intros w. split; auto. exists [EvSleep n]. split; auto. repeat constructor.
Qed.

Lemma harmless_get_config : harmless get_config.
Proof. now apply harmless_quiet_step. Qed.

Lemma harmless_set_disk d : harmless (set_disk d).
Proof. now apply harmless_quiet_step. Qed.

Lemma harmless_now : harmless now.
Proof. now apply harmless_quiet_step. Qed.

Lemma harmless_next_get : harmless next_get.
Proof. now apply harmless_quiet_step. Qed.

Lemma harmless_next_save : harmless next_save.
Proof. now apply harmless_quiet_step. Qed.

Lemma harmless_emit_get t u s : harmless (emit (EvGet t u s)).
Proof. apply harmless_emit. repeat constructor. Qed.

Lemma harmless_emit_write t : harmless (emit (EvWrite t)).
Proof. apply harmless_emit. repeat constructor. Qed.

Create HintDb harmless.
#[local] Hint Resolve harmless_ret harmless_raise harmless_lift harmless_log
  harmless_sleep harmless_get_config harmless_set_disk harmless_now
  harmless_next_get harmless_next_save harmless_emit_get harmless_emit_write
  : harmless.

Ltac harmless_step :=
  match goal with
  | |- harmless (bind _ _) => apply harmless_bind; [|intros]
  | |- harmless (try_except _ _) => apply harmless_try; [|intros]
  | |- harmless (if ?b then _ else _) => destruct b
  | |- harmless (match ?x with _ => _ end) => destruct x
  | |- harmless _ => solve [auto with harmless]
  end.

Ltac harmless_auto := repeat harmless_step.

Lemma harmless_save_config E : harmless (save_config E).
Proof. unfold save_config. harmless_auto. Qed.

Lemma harmless_get_recent_tweets E u s : harmless (get_recent_tweets E u s).
Proof. unfold get_recent_tweets. harmless_auto. Qed.

Lemma harmless_config_getitem k : harmless (config_getitem k).
Proof. unfold config_getitem. harmless_auto. Qed.

Lemma harmless_py_sleep v : harmless (py_sleep v).
Proof. unfold py_sleep. harmless_auto. Qed.

Lemma try_except_bind {A B} (m : M A) (k : A -> M B) (h : exn -> M B) (w : world) :
  try_except (bind m k) h w
  = match m w with
    | (Ok a, w1) => try_except (k a) h w1
    | (Raise e, w1) => h e w1
    end.
Proof. unfold try_except, bind. destruct (m w) as [[a|e] w1]; reflexivity. Qed.

Lemma get_recent_tweets_value E uid since w :
  exists v w1,
    get_recent_tweets E uid since w = (Ok v, w1)
    /\ (v = PList []
        \/ exists body,
             feed E (gets w) uid (since_param since)
             = HttpResponse 200 (Some (PDict body))
             /\ v = dict_get_default "data" (PList []) body).
Proof.
  unfold get_recent_tweets, try_except, bind. simpl.
  destruct (feed E (gets w) uid (since_param since)) as [|status json] eqn:Hfeed;
    simpl.
  { eexists; eexists; split; [reflexivity | now left]. }
  destruct (status =? 200)%Z eqn:Hs.
  - apply Z.eqb_eq in Hs. subst status.
    destruct json as [data|]; simpl.
    + destruct data; simpl;
        (eexists; eexists; split; [reflexivity |]); try (now left).
      right. eauto.
    + eexists; eexists; split; [reflexivity | now left].
  - destruct (status =? 429)%Z; simpl;
      (eexists; eexists; split; [reflexivity | now left]).
Qed.

Lemma newer_than_numbered since t : newer_than since t -> tweet_number t <> None.
Proof.
  intros [d [s [k [-> [Hid [Hk _]]]]]]. unfold tweet_number. simpl.
  rewrite Hid. simpl. now rewrite Hk.
Qed.

(** The two ways a round of one account can go: nothing is sent and
    nothing is written, or the feed delivered a list of newer tweets and
    they are handled in ascending order. *)
Lemma check_account_cases E e accs chat w :
  stored accs w ->
  find (same_user (entry_username e)) accs = Some e ->
  feed_newer E ->
  exists w' evs,
    check_account E (account_of e) chat w = (Ok tt, w')
    /\ trace w' = trace w ++ evs
    /\ ((config w' = config w /\ quiet evs)
        \/ exists tweets,
             Forall (newer_than (since_param (entry_last e))) tweets
             /\ config w'
                = config (store (fold_left
                                   (fun s t => set_last (entry_username e) (tweet_id t) s)
                                   (sorted_tweets tweets) accs) w)
             /\ evs = EvGet (clock w) (entry_user_id e) (since_param (entry_last e))
                      :: delivery_events E chat (entry_username e) (sends w)
                                         (entry_last e) (sorted_tweets tweets)).
Proof.
  intros Hst Hfind Hnewer.
  set (k := fun tweets : pyval =>
              if py_truthy tweets
              then (sorted <- py_sort tweet_key tweets ;;
                    for_each (process_tweet E (account_of e) chat) sorted)
              else ret tt).
  set (h := fun _ : exn => log "Error checking account").
  assert (Hquiet : forall v,
             match v with PList (_ :: _) => False | _ => True end ->
             harmless (try_except (k v) h)).
  { intros v Hv. subst k h. apply harmless_try; [|intros; apply harmless_log].
    destruct v as [|b|z|s|l|d]; simpl.
    - harmless_auto.
    - destruct b; [apply harmless_bind_raise | harmless_auto].
    - destruct (negb (z =? 0)%Z); [apply harmless_bind_raise | harmless_auto].
    - destruct (negb (String.eqb s EmptyString));
        [apply harmless_bind_raise | harmless_auto].
    - destruct l; [harmless_auto | contradiction].
    - destruct d; [harmless_auto | apply harmless_bind_raise]. }
  destruct (get_recent_tweets_value E (entry_user_id e) (entry_last e) w)
    as [v [w1 [Hget Hv]]].
  destruct (harmless_get_recent_tweets E (entry_user_id e) (entry_last e) w)
    as [Hc1 [e1 [Ht1 Hq1]]].
  rewrite Hget in Hc1, Ht1. simpl in Hc1, Ht1.
  assert (Hleft : match v with PList (_ :: _) => False | _ => True end ->
                  exists w' evs,
                    check_account E (account_of e) chat w = (Ok tt, w')
                    /\ trace w' = trace w ++ evs
                    /\ config w' = config w /\ quiet evs).
  { intros Hvq.
    destruct (Hquiet v Hvq w1) as [Hc2 [e2 [Ht2 Hq2]]].
    pose proof (check_account_returns E (account_of e) chat w) as Hok.
    unfold check_account in *. fold k in Hok |- *. fold h in Hok |- *.
    rewrite try_except_bind in Hok |- *. simpl user_id in *. simpl last_tweet_id in *.
    rewrite Hget in Hok |- *.
    destruct (try_except (k v) h w1) as [r w'] eqn:Hrun. simpl in *. subst r.
    exists w', (e1 ++ e2). split; auto.
    rewrite Ht2, Ht1, app_assoc.
    split; [reflexivity |]. split; [congruence | now apply quiet_app]. }
  destruct Hv as [-> | [body [Hfeed ->]]].
  - destruct (Hleft I) as [w' [evs [H1 [H2 [H3 H4]]]]]. eauto 8.
  - unfold dict_get_default in *.
    destruct (dict_get "data" body) as [data|] eqn:Hdata.
    + destruct data as [| | | |tweets|d];
        try (destruct (Hleft I) as [w' [evs [H1 [H2 [H3 H4]]]]]; eauto 8; fail).
      pose proof (Hnewer _ _ _ _ _ Hfeed Hdata) as Hnew.
      assert (Hnum : Forall (fun t => tweet_number t <> None) tweets).
      { eapply Forall_impl; [|exact Hnew]. intros t. apply newer_than_numbered. }
      rewrite (check_account_stored E e accs chat w body tweets Hst Hfind Hfeed Hdata Hnum).
      eexists. eexists. split; [reflexivity |]. split; [reflexivity |].
      right. exists tweets. auto.
    + destruct (Hleft I) as [w' [evs [H1 [H2 [H3 H4]]]]]. eauto 8.
Qed.

Lemma newer_than_string_id since t : newer_than since t -> string_id t.
Proof. intros [d [s [k [H1 [H2 [H3 _]]]]]]. exists d, s, k. auto. Qed.

Lemma string_id_value t :
  string_id t ->
  id_value (tweet_id t) = Some (number_or_zero t) /\ tweet_number t <> None.
Proof.
  intros [d [s [k [-> [Hid Hk]]]]].
  unfold number_or_zero, tweet_number, tweet_id, dict_get_default. simpl.
  rewrite Hid. simpl. rewrite Hk. split; [reflexivity | discriminate].
Qed.

Lemma id_value_since v m : id_value v = Some m -> since_param v = Some v.
Proof.
  destruct v as [| | |s| |]; simpl; try discriminate.
  destruct s; [discriminate | reflexivity].
Qed.

Lemma newer_than_above v m t :
  id_value v = Some m -> newer_than (since_param v) t -> (m < number_or_zero t)%Z.
Proof.
  intros Hv Hnew.
  destruct (string_id_value t (newer_than_string_id _ _ Hnew)) as [Hval _].
  destruct Hnew as [d [s [k [-> [Hid [Hk Habove]]]]]].
  unfold tweet_id, dict_get_default in Hval. rewrite Hid in Hval. simpl in Hval.
  assert (k = number_or_zero (PDict d)) as <- by congruence.
  eapply Habove; [apply (id_value_since v m Hv) | exact Hv].
Qed.

Lemma delivery_never_lowered E chat name ts : forall n old0,
  Forall string_id ts ->
  StronglySorted (fun a b => (number_or_zero a <= number_or_zero b)%Z) ts ->
  (forall m, id_value old0 = Some m -> Forall (fun t => (m <= number_or_zero t)%Z) ts) ->
  never_lowered (delivery_events E chat name n old0 ts).
Proof.
  induction ts as [|t r IH]; intros n old0 Hids Hsort Hold; simpl.
  - constructor.
  - inversion Hids as [|? ? Ht Hr]; subst.
    inversion Hsort as [|? ? Hsr Hall]; subst.
    destruct (string_id_value t Ht) as [Hval _].
    repeat constructor.
    + intros m Hm. exists (number_or_zero t). split; auto.
      specialize (Hold m Hm). now inversion Hold.
    + apply IH; auto.
      intros m Hm. rewrite Hval in Hm. injection Hm as <-. exact Hall.
Qed.

Lemma sent_ids_delivery_events E chat name ts : forall n old0,
  Forall string_id ts ->
  map fst (sent_ids (delivery_events E chat name n old0 ts)) = map tweet_id ts.
Proof.
  induction ts as [|t r IH]; intros n old0 Hids; simpl; auto.
  inversion Hids as [|? ? Ht Hr]; subst.
  unfold sent_ids in *. simpl. rewrite IH; auto.
  f_equal. apply message_of_tweet_id. now apply string_id_value.
Qed.

Lemma sent_numbers_delivery_events E chat name ts n old0 :
  Forall string_id ts ->
  sent_numbers (delivery_events E chat name n old0 ts) (map number_or_zero ts).
Proof.
  intros Hids. unfold sent_numbers.
  rewrite <- (map_map fst id_value), sent_ids_delivery_events, !map_map; auto.
  apply map_ext_in. intros t Ht. rewrite Forall_forall in Hids.
  now apply string_id_value, Hids.
Qed.

Lemma sorted_le_nodup_lt ks :
  StronglySorted Z.le ks -> NoDup ks -> StronglySorted Z.lt ks.
Proof.
  induction 1 as [|k r Hs IH Hall]; intros Hnd; constructor;
    inversion Hnd as [|? ? Hnin Hr]; subst; auto.
  rewrite Forall_forall in *. intros x Hx.
  specialize (Hall x Hx).
  assert (x <> k) by (intros ->; contradiction). lia.
Qed.

Lemma find_unique e accs :
  NoDup (map handle accs) -> In e accs ->
  find (same_user (entry_username e)) accs = Some e.
Proof.
  induction accs as [|e0 r IH]; simpl; intros Hnd Hin; [contradiction |].
  inversion Hnd as [|? ? Hnin Hr]; subst.
  unfold same_user at 1. fold (handle e).
  destruct Hin as [-> | Hin].
  - now rewrite String.eqb_refl.
  - destruct (String.eqb (handle e0) (handle e)) eqn:He.
    + apply String.eqb_eq in He. elim Hnin. rewrite He. now apply in_map.
    + now apply IH.
Qed.

Lemma fold_set_last_other u e2 ts : forall accs,
  In e2 accs -> same_user u e2 = false ->
  In e2 (fold_left (fun s t => set_last u (tweet_id t) s) ts accs).
Proof.
  induction ts as [|t r IH]; intros accs Hin Hne; simpl; auto.
  apply IH; auto. clear IH.
  induction accs as [|e0 l IHl]; simpl in *; auto.
  destruct (same_user u e0) eqn:Hu.
  - destruct Hin as [-> | Hin]; [congruence | now right].
  - destruct Hin as [-> | Hin]; [now left | right; auto].
Qed.

Lemma map_handle_fold_set_last u ts : forall accs,
  map handle (fold_left (fun s t => set_last u (tweet_id t) s) ts accs)
  = map handle accs.
Proof.
  induction ts as [|t r IH]; intros accs; simpl; auto.
  now rewrite IH, map_handle_set_last.
Qed.

Lemma stored_config accs w w' : config w' = config w -> stored accs w -> stored accs w'.
Proof. unfold stored. now intros ->. Qed.

(** One account in a round: the account list keeps its handles and the
    other accounts, and no watermark is lowered. *)
Lemma check_account_step E e accs chat w :
  stored accs w ->
  find (same_user (entry_username e)) accs = Some e ->
  feed_newer E ->
  exists w' evs accs',
    check_account E (account_of e) chat w = (Ok tt, w')
    /\ trace w' = trace w ++ evs
    /\ stored accs' w'
    /\ map handle accs' = map handle accs
    /\ (forall e2, In e2 accs -> same_user (entry_username e) e2 = false -> In e2 accs')
    /\ never_lowered evs.
Proof.
  intros Hst Hfind Hnewer.
  destruct (check_account_cases E e accs chat w Hst Hfind Hnewer)
    as [w' [evs [Hrun [Htr [[Hc Hq] | [tweets [Hnew [Hc Hevs]]]]]]]].
  - exists w', evs, accs. repeat split; auto.
    + eapply stored_config; eauto.
    + now apply quiet_never_lowered.
  - exists w', evs.
    exists (fold_left (fun s t => set_last (entry_username e) (tweet_id t) s)
                      (sorted_tweets tweets) accs).
    split; auto. split; auto.
    split; [unfold stored; rewrite Hc; apply stored_store |].
    split; [apply map_handle_fold_set_last |].
    split; [intros; now apply fold_set_last_other |].
    subst evs. constructor; [exact I |].
    assert (Hnew' : Forall (newer_than (since_param (entry_last e))) (sorted_tweets tweets))
      by (eapply Permutation_Forall; [apply sorted_tweets_perm | exact Hnew]).
    apply delivery_never_lowered.
    + eapply Forall_impl; [|exact Hnew']. intros t. apply newer_than_string_id.
    + apply sorted_tweets_sorted.
    + intros m Hm. eapply Forall_impl; [|exact Hnew'].
      intros t Ht. pose proof (newer_than_above _ m t Hm Ht). lia.
Qed.

Lemma never_lowered_app a b : never_lowered a -> never_lowered b -> never_lowered (a ++ b).
Proof. unfold never_lowered. intros. apply Forall_app. auto. Qed.

(** All the accounts of a round, one after the other. *)
Lemma round_accounts E chat todo : forall accs w,
  stored accs w ->
  NoDup (map handle accs) ->
  NoDup (map handle todo) ->
  incl todo accs ->
  feed_newer E ->
  exists w' evs accs',
    for_each (fun a => check_account E a chat) (map account_of todo) w = (Ok tt, w')
    /\ trace w' = trace w ++ evs
    /\ stored accs' w'
    /\ map handle accs' = map handle accs
    /\ never_lowered evs.
Proof.
  induction todo as [|e r IH]; intros accs w Hst Hnd Hndt Hincl Hnewer.
  - exists w, [], accs. simpl. rewrite app_nil_r. repeat split; auto. constructor.
  - inversion Hndt as [|? ? Hnin Hndr]; subst.
    assert (Hfind : find (same_user (entry_username e)) accs = Some e).
    { apply find_unique; auto. apply Hincl. now left. }
    destruct (check_account_step E e accs chat w Hst Hfind Hnewer)
      as [w1 [evs1 [accs1 [Hrun [Htr1 [Hst1 [Hh1 [Hkeep Hnl1]]]]]]]].
    destruct (IH accs1 w1) as [w2 [evs2 [accs2 [Hrun2 [Htr2 [Hst2 [Hh2 Hnl2]]]]]]];
      auto.
    + now rewrite Hh1.
    + intros e2 Hin2. apply Hkeep.
      * apply Hincl. now right.
      * unfold same_user. fold (handle e).
        destruct (String.eqb (handle e2) (handle e)) eqn:He; auto.
        apply String.eqb_eq in He. elim Hnin. rewrite <- He. now apply in_map.
    + exists w2, (evs1 ++ evs2), accs2. simpl. unfold bind. rewrite Hrun.
      split; auto. split; [rewrite Htr2, Htr1; symmetry; apply app_assoc |].
      split; auto. split; [congruence |]. now apply never_lowered_app.
Qed.

Lemma save_config_returns E w : fst (save_config E w) = Ok tt.
Proof. apply try_except_log. Qed.

Lemma monitoring_round_returns E chat w : fst (monitoring_round E chat w) = Ok tt.
Proof.
  unfold monitoring_round, try_except.
  match goal with |- fst (let (r, w') := ?m w in _) = _ => destruct (m w) as [[[]|e] w'] end;
    reflexivity.
Qed.

(** One pass of the monitoring loop keeps the handles of the account list
    and lowers no watermark. *)
Lemma monitoring_round_watermarks E chat accs w :
  stored accs w ->
  NoDup (map handle accs) ->
  feed_newer E ->
  exists w' evs accs',
    monitoring_round E chat w = (Ok tt, w')
    /\ trace w' = trace w ++ evs
    /\ stored accs' w'
    /\ map handle accs' = map handle accs
    /\ never_lowered evs.
Proof.
  intros Hst Hnd Hnewer.
  pose proof (monitoring_round_returns E chat w) as Hok.
  set (tail := interval <- config_getitem "check_interval" ;; py_sleep interval).
  set (h := fun _ : exn => log "Error in monitoring loop" ;; sleep 10).
  assert (Htail : harmless (try_except tail h)).
  { subst tail h. apply harmless_try.
    - apply harmless_bind; [apply harmless_config_getitem |].
      intros. apply harmless_py_sleep.
    - intros. harmless_auto. }
  assert (Hend : forall w1 evs1 accs1,
             trace w1 = trace w ++ evs1 -> stored accs1 w1 ->
             map handle accs1 = map handle accs -> never_lowered evs1 ->
             exists w' evs accs',
               try_except tail h w1 = (fst (try_except tail h w1), w')
               /\ trace w' = trace w ++ evs
               /\ stored accs' w'
               /\ map handle accs' = map handle accs
               /\ never_lowered evs).
  { intros w1 evs1 accs1 Htr1 Hst1 Hh1 Hnl1.
    destruct (Htail w1) as [Hc [evs2 [Htr2 Hq2]]].
    exists (snd (try_except tail h w1)), (evs1 ++ evs2), accs1.
    split; [now destruct (try_except tail h w1) |].
    split; [rewrite Htr2, Htr1; symmetry; apply app_assoc |].
    split; [eapply stored_config; eauto |].
    split; auto. apply never_lowered_app; auto. now apply quiet_never_lowered. }
  unfold monitoring_round in *. fold tail in Hok |- *. fold h in Hok |- *.
  rewrite try_except_bind in Hok |- *.
  rewrite (get_accounts_stored accs w Hst) in Hok |- *.
  destruct accs as [|e r].
  - simpl map in *. cbv iota in *.
    rewrite try_except_bind in Hok |- *.
    change (ret tt w) with (@pair (result unit) world (Ok tt) w) in *.
    cbv beta iota in *.
    destruct (Hend w [] []) as [w' [evs [accs' [Hrun H]]]]; auto.
    + now rewrite app_nil_r.
    + constructor.
    + rewrite Hrun in Hok |- *. simpl in Hok. rewrite Hok. eauto.
  - simpl map in *. cbv iota in *.
    rewrite try_except_bind in Hok |- *.
    destruct (round_accounts E chat (e :: r) (e :: r) w)
      as [w1 [evs1 [accs1 [Hrun1 [Htr1 [Hst1 [Hh1 Hnl1]]]]]]];
      auto using incl_refl.
    simpl map in Hrun1.
    unfold bind at 1 in Hok. unfold bind at 1. rewrite Hrun1 in Hok |- *.
    pose proof (save_config_returns E w1) as Hsave.
    destruct (harmless_save_config E w1) as [Hc2 [evs2 [Htr2 Hq2]]].
    destruct (save_config E w1) as [rs w2]. simpl in *. subst rs.
    destruct (Hend w2 (evs1 ++ evs2) accs1) as [w' [evs [accs' [Hrun H]]]]; auto.
    + rewrite Htr2, Htr1. symmetry; apply app_assoc.
    + eapply stored_config; eauto.
    + apply never_lowered_app; auto. now apply quiet_never_lowered.
    + rewrite Hrun in Hok |- *. simpl in Hok. rewrite Hok. eauto.
Qed.

Lemma monitoring_loop_watermarks E chat rounds : forall accs w,
  stored accs w ->
  NoDup (map handle accs) ->
  feed_newer E ->
  exists w' evs accs',
    monitoring_loop E rounds chat w = (Ok tt, w')
    /\ trace w' = trace w ++ evs
    /\ stored accs' w'
    /\ NoDup (map handle accs')
    /\ never_lowered evs.
Proof.
  induction rounds as [|n IH]; intros accs w Hst Hnd Hnewer.
  - exists w, [], accs. simpl. rewrite app_nil_r. repeat split; auto. constructor.
  - destruct (monitoring_round_watermarks E chat accs w Hst Hnd Hnewer)
      as [w1 [evs1 [accs1 [Hrun1 [Htr1 [Hst1 [Hh1 Hnl1]]]]]]].
    destruct (IH accs1 w1) as [w2 [evs2 [accs2 [Hrun2 [Htr2 [Hst2 [Hnd2 Hnl2]]]]]]];
      auto.
    + now rewrite Hh1.
    + exists w2, (evs1 ++ evs2), accs2. simpl. unfold bind. rewrite Hrun1.
      split; auto. split; [rewrite Htr2, Htr1; symmetry; apply app_assoc |].
      split; auto. split; auto. now apply never_lowered_app.
Qed.

Lemma sorted_map_le (f : pyval -> Z) l :
  StronglySorted (fun a b => (f a <= f b)%Z) l -> StronglySorted Z.le (map f l).
Proof.
  induction 1 as [|x r Hs IH Hall]; simpl; constructor; auto.
  now rewrite Forall_map.
Qed.

(** C3, as the code has it: in a store with unique handles, polled from a
    feed that returns tweets with string ids newer than the [since_id] of
    the request, no pass of the monitoring loop ever replaces a watermark
    by an id with a smaller number; and in the round of an account the
    numbers of the ids of the messages sent are in non-decreasing order
    and all above the number of the watermark the round started with, and
    strictly increasing when they are pairwise different. *)
Theorem watermark_never_lowered (E : env) (accs : list entry) (w : world)
    (chat : string) (rounds : nat) :
  stored accs w ->
  NoDup (map handle accs) ->
  feed_newer E ->
  (exists w' evs,
     monitoring_loop E rounds chat w = (Ok tt, w')
     /\ trace w' = trace w ++ evs
     /\ never_lowered evs)
  /\ (forall e, In e accs ->
      exists w' evs ks,
        check_account E (account_of e) chat w = (Ok tt, w')
        /\ trace w' = trace w ++ evs
        /\ sent_numbers evs ks
        /\ StronglySorted Z.le ks
        /\ (forall m, id_value (entry_last e) = Some m -> Forall (fun k => (m < k)%Z) ks)
        /\ (NoDup ks -> StronglySorted Z.lt ks)).
Proof.
  intros Hst Hnd Hnewer. split.
  - destruct (monitoring_loop_watermarks E chat rounds accs w Hst Hnd Hnewer)
      as [w' [evs [accs' [Hrun [Htr [_ [_ Hnl]]]]]]].
    exists w', evs. auto.
  - intros e Hin.
    pose proof (find_unique e accs Hnd Hin) as Hfind.
    destruct (check_account_cases E e accs chat w Hst Hfind Hnewer)
      as [w' [evs [Hrun [Htr [[Hc Hq] | [tweets [Hnew [Hc Hevs]]]]]]]].
    + exists w', evs, []. split; auto. split; auto.
      split; [unfold sent_numbers; now rewrite quiet_sent_ids |].
      repeat split; constructor.
    + assert (Hnew' : Forall (newer_than (since_param (entry_last e)))
                             (sorted_tweets tweets))
        by (eapply Permutation_Forall; [apply sorted_tweets_perm | exact Hnew]).
      assert (Hle : StronglySorted Z.le (map number_or_zero (sorted_tweets tweets)))
        by apply sorted_map_le, sorted_tweets_sorted.
      exists w', evs, (map number_or_zero (sorted_tweets tweets)).
      split; auto. split; auto.
      split.
      { subst evs. apply (sent_numbers_delivery_events E chat).
        eapply Forall_impl; [|exact Hnew']. intros t. apply newer_than_string_id. }
      split; auto. split.
      * intros m Hm. rewrite Forall_map.
        eapply Forall_impl; [|exact Hnew']. intros t. now apply newer_than_above.
      * now apply sorted_le_nodup_lt.
Qed.

Ltac newer_example :=
  eexists; eexists; eexists;
  (split; [reflexivity |]); (split; [reflexivity |]); (split; [reflexivity |]);
  let v := fresh "v" in
  let m := fresh "m" in
  let Hv := fresh "Hv" in
  let Hm := fresh "Hm" in
  intros v m Hv Hm; injection Hv as <-; vm_compute in Hm; injection Hm as <-;
  vm_compute; reflexivity.

Lemma example_feed_newer : feed_newer example_env.
Proof.
  intros n uid since body tweets Hfeed Hdata. simpl in Hfeed.
  unfold example_feed in Hfeed.
  destruct since as [[| | |s| |]|]; try (injection Hfeed as <-; discriminate).
  destruct (String.eqb s "2") eqn:Hs; [|injection Hfeed as <-; discriminate].
  apply String.eqb_eq in Hs. subst s.
  injection Hfeed as <-. injection Hdata as <-.
  repeat (apply Forall_cons; [newer_example |]). apply Forall_nil.
Qed.

Lemma watermark_never_lowered_witness :
  stored [bob] bob_world
  /\ NoDup (map handle [bob])
  /\ exists w' evs,
       monitoring_loop example_env 2 "chat" bob_world = (Ok tt, w')
       /\ trace w' = trace bob_world ++ evs
       /\ never_lowered evs.
Proof.
  assert (Hnd : NoDup (map handle [bob])).
  { constructor; [intros [] | constructor]. }
  split; [reflexivity |]. split; [exact Hnd |].
  destruct (watermark_never_lowered example_env [bob] bob_world "chat" 2
              eq_refl Hnd example_feed_newer) as [Hloop _].
  exact Hloop.
Defined.

Lemma repeating_feed_newer : feed_newer repeating_env.
Proof.
  intros n uid since body tweets Hfeed Hdata. simpl in Hfeed.
  destruct since as [[| | |s| |]|]; try (injection Hfeed as <-; discriminate).
  destruct (String.eqb s "2") eqn:Hs; [|injection Hfeed as <-; discriminate].
  apply String.eqb_eq in Hs. subst s.
  injection Hfeed as <-. injection Hdata as <-.
  repeat (apply Forall_cons; [newer_example |]). apply Forall_nil.
Qed.

(** C3 as stated fails: a feed that returns nothing but tweets newer than
    the watermark, and one of them twice, has that tweet sent twice, so
    the ids of the posts delivered are not strictly increasing. *)
Lemma repeated_tweet_sent_twice :
  let w1 := snd (check_account repeating_env (account_of bob) "chat" bob_world) in
  feed_newer repeating_env
  /\ stored [bob] bob_world
  /\ NoDup (map handle [bob])
  /\ sent_ids (trace w1) = [(PStr "5", true); (PStr "5", true)]
  /\ sent_numbers (trace w1) [5%Z; 5%Z]
  /\ ~ StronglySorted Z.lt [5%Z; 5%Z].
Proof.
  cbv zeta.
  split; [exact repeating_feed_newer |].
  split; [reflexivity |].
  split; [constructor; [intros [] | constructor] |].
  split; [vm_compute; reflexivity |].
  split; [vm_compute; reflexivity |].
  intros H. inversion H as [|? ? _ Hall]; subst.
  inversion Hall as [|? ? Hlt _]; subst. lia.
Qed.

Lemma twins_feed_newer : feed_newer twins_env.
Proof.
  intros n uid since body tweets Hfeed Hdata. simpl in Hfeed.
  destruct since as [[| | |s| |]|]; try (injection Hfeed as <-; discriminate).
  destruct (String.eqb s "5") eqn:Hs; [|injection Hfeed as <-; discriminate].
  apply String.eqb_eq in Hs. subst s.
  injection Hfeed as <-. injection Hdata as <-.
  repeat (apply Forall_cons; [newer_example |]). apply Forall_nil.
Qed.

(** The uniqueness of the handles is needed: when a configuration file
    lists a handle twice, the tweets of the second account move the
    watermark of the first, here from 100 down to 6. *)
Remark twin_handles_lower_a_watermark :
  let w1 := snd (monitoring_round twins_env "chat" (store twins fresh_world)) in
  feed_newer twins_env
  /\ In (EvWatermark "Bob" (PStr "100") (PStr "6")) (trace w1)
  /\ ~ never_lowered (trace w1).
Proof.
  cbv zeta. split; [exact twins_feed_newer |].
  remember (trace (snd (monitoring_round twins_env "chat" (store twins fresh_world))))
    as tr eqn:Htr.
  vm_compute in Htr. subst tr.
  split; [simpl; tauto |].
  intros H. unfold never_lowered in H. rewrite Forall_forall in H.
  match goal with
  | H : forall x, In x ?l -> _ |- _ =>
      assert (Hin : In (EvWatermark "Bob" (PStr "100") (PStr "6")) l)
        by (simpl; tauto);
      specialize (H _ Hin 100%Z eq_refl)
  end.
  destruct H as [k [Hk Hle]]. vm_compute in Hk. injection Hk as <-. lia.
Qed.

(** * Further properties of the account store *)

Lemma filter_shorter {A} (p : A -> bool) (l : list A) :
  (List.length (filter (fun x => negb (p x)) l) <? List.length l)%nat = existsb p l.
Proof.
  assert (Hle : forall l', (List.length (filter (fun x => negb (p x)) l') <= List.length l')%nat).
  { induction l' as [|y r' IH]; simpl; auto. destruct (p y); simpl; lia. }
  induction l as [|x r IH]; simpl; auto.
  destruct (p x); simpl.
  - apply Nat.ltb_lt. specialize (Hle r). lia.
  - exact IH.
Qed.

Lemma has_handle_kept u accs :
  has_handle (str_lower u) (filter (fun e => negb (same_user u e)) accs) = false.
Proof. apply has_handle_filter_same. Qed.

(** X1: on a well-formed account list [remove_account] returns [True]
    exactly when an account with the handle of the given username is
    stored; it removes every such account and keeps the others, in their
    order. *)
Theorem remove_account_spec (accs : list entry) (w : world) (u : string) :
  stored accs w ->
  let kept := filter (fun e => negb (same_user u e)) accs in
  exists b,
    remove_account u w = (Ok b, store kept w)
    /\ (b = true <-> In (str_lower u) (map handle accs))
    /\ stored kept (store kept w)
    /\ ~ In (str_lower u) (map handle kept)
    /\ (forall e, In e kept <-> In e accs /\ handle e <> str_lower u).
Proof.
  intros Hst kept.
  exists (has_handle (str_lower u) accs).
  rewrite (remove_account_stored u accs w Hst). cbv zeta.
  rewrite filter_shorter, existsb_same_user. fold kept.
  split; [reflexivity |].
  split; [apply has_handle_In |].
  split; [apply stored_store |].
  split.
  - rewrite <- has_handle_In. subst kept. now rewrite has_handle_kept.
  - intros e. subst kept. rewrite filter_In. unfold same_user.
    destruct (String.eqb_spec (handle e) (str_lower u)); simpl; intuition congruence.
Qed.

Lemma remove_account_spec_witness :
  stored [bob] bob_world
  /\ remove_account "BOB" bob_world = (Ok true, store [] bob_world)
  /\ remove_account "alice" bob_world = (Ok false, bob_world).
Proof.
  split; [reflexivity |].
  destruct (remove_account_spec [bob] bob_world "BOB" eq_refl) as [b [Hrun [Hb _]]].
  destruct (remove_account_spec [bob] bob_world "alice" eq_refl) as [b' [Hrun' [Hb' _]]].
  split.
  - rewrite Hrun. f_equal. f_equal. apply Hb. now left.
  - rewrite Hrun'. f_equal. f_equal.
    destruct b'; auto. destruct Hb' as [Hb' _].
    destruct (Hb' eq_refl) as [H | []]. discriminate.
Defined.

(** X2: a second [remove_account] of the same username, directly after the
    first, returns [False] and changes nothing. *)
Theorem remove_account_twice (accs : list entry) (w : world) (u : string) :
  stored accs w ->
  exists b w1,
    remove_account u w = (Ok b, w1)
    /\ remove_account u w1 = (Ok false, w1).
Proof.
  intros Hst.
  set (kept := filter (fun e => negb (same_user u e)) accs).
  exists (has_handle (str_lower u) accs), (store kept w).
  rewrite (remove_account_stored u accs w Hst). cbv zeta.
  rewrite filter_shorter, existsb_same_user. fold kept. split; [reflexivity |].
  rewrite (remove_account_stored u kept (store kept w) (stored_store _ _)).
  cbv zeta. rewrite filter_shorter, existsb_same_user.
  subst kept. rewrite has_handle_kept.
  assert (Hsame : filter (fun e => negb (same_user u e))
                         (filter (fun e => negb (same_user u e)) accs)
                  = filter (fun e => negb (same_user u e)) accs).
  { clear. induction accs as [|e r IH]; simpl; auto.
    destruct (same_user u e) eqn:He; simpl; auto. rewrite He. simpl. now rewrite IH. }
  now rewrite Hsame, store_store.
Qed.

Lemma remove_account_twice_witness :
  stored [bob] bob_world
  /\ exists b w1,
       remove_account "Bob" bob_world = (Ok b, w1)
       /\ remove_account "Bob" w1 = (Ok false, w1).
Proof.
  split; [reflexivity |].
  exact (remove_account_twice [bob] bob_world "Bob" eq_refl).
Defined.

Lemma filter_none_same u accs :
  has_handle (str_lower u) accs = false ->
  filter (fun e => negb (same_user u e)) accs = accs.
Proof.
  induction accs as [|e r IH]; simpl; auto.
  unfold same_user at 1.
  destruct (String.eqb (handle e) (str_lower u)); simpl; [discriminate |].
  intros H. now rewrite IH.
Qed.

(** X3: adding an account whose handle is not stored and removing it again
    gives back the world as it was: both calls return [True]. *)
Theorem add_then_remove (accs : list entry) (w : world) (u : string) (i : pyval) :
  stored accs w ->
  ~ In (str_lower u) (map handle accs) ->
  add_account u i w = (Ok true, store (accs ++ [mkEntry u i PNone]) w)
  /\ remove_account u (store (accs ++ [mkEntry u i PNone]) w) = (Ok true, w).
Proof.
  intros Hst Hfresh.
  assert (Hh : has_handle (str_lower u) accs = false).
  { destruct (has_handle (str_lower u) accs) eqn:H; auto.
    apply has_handle_In in H. contradiction. }
  rewrite (add_account_stored u i accs w Hst), existsb_same_user, Hh.
  split; [reflexivity |].
  rewrite (remove_account_stored u _ _ (stored_store _ w)). cbv zeta.
  rewrite filter_shorter, existsb_same_user, has_handle_app, Hh.
  rewrite filter_app, (filter_none_same u accs Hh). simpl.
  unfold same_user, handle. simpl. rewrite String.eqb_refl. simpl.
  now rewrite app_nil_r, store_store, (store_same _ _ Hst).
Qed.

Lemma add_then_remove_witness :
  stored [bob] bob_world
  /\ remove_account "Alice"
       (store [bob; mkEntry "Alice" (PStr "5") PNone] bob_world)
     = (Ok true, bob_world).
Proof.
  split; [reflexivity |].
  assert (Hfresh : ~ In (str_lower "Alice") (map handle [bob])).
  { intros [H | []]. discriminate. }
  exact (proj2 (add_then_remove [bob] bob_world "Alice" (PStr "5") eq_refl Hfresh)).
Defined.

Lemma find_after_kept u accs l :
  find (same_user u) (filter (fun e => negb (same_user u e)) accs ++ l)
  = find (same_user u) l.
Proof.
  induction accs as [|e r IH]; simpl; auto.
  destruct (same_user u e) eqn:He; simpl; auto. now rewrite He.
Qed.

(** X4: removing a username and adding it again always succeeds, and the
    account comes back at the end of the list with the watermark [None],
    whatever watermark it had before. *)
Theorem remove_then_add (accs : list entry) (w : world) (u : string) (i : pyval) :
  stored accs w ->
  let kept := filter (fun e => negb (same_user u e)) accs in
  exists b w1,
    remove_account u w = (Ok b, w1)
    /\ add_account u i w1 = (Ok true, store (kept ++ [mkEntry u i PNone]) w)
    /\ watermark u (kept ++ [mkEntry u i PNone]) = Some PNone.
Proof.
  intros Hst kept.
  exists (has_handle (str_lower u) accs), (store kept w).
  rewrite (remove_account_stored u accs w Hst). cbv zeta.
  rewrite filter_shorter, existsb_same_user. fold kept. split; [reflexivity |].
  rewrite (add_account_stored u i kept _ (stored_store _ w)).
  rewrite existsb_same_user. subst kept. rewrite has_handle_kept, store_store.
  split; [reflexivity |].
  unfold watermark. rewrite find_after_kept. simpl.
  unfold same_user, handle. simpl. now rewrite String.eqb_refl.
Qed.

Lemma remove_then_add_witness :
  stored [bob] bob_world
  /\ watermark "Bob" [bob] = Some (PStr "2")
  /\ exists b w1,
       remove_account "bob" bob_world = (Ok b, w1)
       /\ add_account "bob" (PStr "77") w1
          = (Ok true, store [mkEntry "bob" (PStr "77") PNone] bob_world).
Proof.
  split; [reflexivity |]. split; [reflexivity |].
  destruct (remove_then_add [bob] bob_world "bob" (PStr "77") eq_refl)
    as [b [w1 [Hrem [Hadd _]]]].
  exists b, w1. split; [exact Hrem | exact Hadd].
Defined.

Lemma set_last_names u id accs :
  map entry_username (set_last u id accs) = map entry_username accs
  /\ map entry_user_id (set_last u id accs) = map entry_user_id accs.
Proof.
  induction accs as [|e r [IH1 IH2]]; simpl; auto.
  destruct (same_user u e); simpl; split; congruence.
Qed.

Lemma watermark_set_last_other u u2 id accs :
  str_lower u2 <> str_lower u ->
  watermark u2 (set_last u id accs) = watermark u2 accs.
Proof.
  intros Hne. unfold watermark.
  induction accs as [|e r IH]; simpl; auto.
  destruct (same_user u e) eqn:Hu; simpl.
  - assert (H2 : same_user u2 e = false).
    { unfold same_user in *. apply String.eqb_eq in Hu.
      destruct (String.eqb_spec (handle e) (str_lower u2)); auto. congruence. }
    unfold same_user, handle in *. simpl. now rewrite H2.
  - destruct (same_user u2 e); auto.
Qed.

(** X5: on a well-formed account list [update_last_tweet] never raises.
    When no account has the handle of the username it changes nothing (and
    logs nothing); otherwise the watermark read back for that username is
    the new id.  In both cases the usernames and user ids of the list, their
    order, and the watermark read for every other handle stay as they
    were. *)
Theorem update_last_tweet_spec (accs : list entry) (w : world) (u : string) (id : pyval) :
  stored accs w ->
  exists w' accs',
    update_last_tweet (PStr u) id w = (Ok tt, w')
    /\ stored accs' w'
    /\ map entry_username accs' = map entry_username accs
    /\ map entry_user_id accs' = map entry_user_id accs
    /\ (In (str_lower u) (map handle accs) -> watermark u accs' = Some id)
    /\ (~ In (str_lower u) (map handle accs) -> w' = w)
    /\ (forall u2, str_lower u2 <> str_lower u ->
                   watermark u2 accs' = watermark u2 accs).
Proof.
  intros Hst. rewrite (update_last_tweet_stored u id accs w Hst).
  destruct (find (same_user u) accs) as [e|] eqn:Hfind.
  - eexists. exists (set_last u id accs).
    split; [reflexivity |]. split; [apply stored_store |].
    split; [apply set_last_names |]. split; [apply set_last_names |].
    split.
    { intros _. unfold watermark. now rewrite find_set_last, Hfind. }
    split.
    { intros Hnin. elim Hnin. apply find_some in Hfind. destruct Hfind as [Hin He].
      apply String.eqb_eq in He. rewrite <- He. now apply in_map. }
    intros u2 Hne. now apply watermark_set_last_other.
  - exists w, accs. repeat split; auto.
    intros Hin. apply in_map_iff in Hin. destruct Hin as [e [He Hin]].
    apply (find_none _ _ Hfind) in Hin. unfold same_user in Hin.
    rewrite He, String.eqb_refl in Hin. discriminate.
Qed.

Lemma update_last_tweet_spec_witness :
  stored [bob] bob_world
  /\ exists w' accs',
       update_last_tweet (PStr "BOB") (PStr "7") bob_world = (Ok tt, w')
       /\ stored accs' w'
       /\ watermark "BOB" accs' = Some (PStr "7").
Proof.
  split; [reflexivity |].
  destruct (update_last_tweet_spec [bob] bob_world "BOB" (PStr "7") eq_refl)
    as [w' [accs' [Hrun [Hst [_ [_ [Hset _]]]]]]].
  exists w', accs'. split; [exact Hrun |]. split; [exact Hst |].
  apply Hset. now left.
Defined.

(** * Reading the account list *)

Lemma keeps_ret {X A} (proj : world -> X) (a : A) : keeps proj (ret a).
Proof. intros w. reflexivity. Qed.

Lemma keeps_raise {X A} (proj : world -> X) e : keeps proj (@raise A e).
Proof. intros w. reflexivity. Qed.

Lemma keeps_lift {X A} (proj : world -> X) (r : result A) : keeps proj (lift r).
Proof. intros w. reflexivity. Qed.

Lemma keeps_bind {X A B} (proj : world -> X) (m : M A) (f : A -> M B) :
  keeps proj m -> (forall a, keeps proj (f a)) -> keeps proj (bind m f).
Proof.
  intros Hm Hf w. unfold bind. specialize (Hm w).
  destruct (m w) as [[a|e] w1]; simpl in *; auto.
  now rewrite (Hf a w1).
Qed.

Lemma keeps_try {X A} (proj : world -> X) (m : M A) (h : exn -> M A) :
  keeps proj m -> (forall e, keeps proj (h e)) -> keeps proj (try_except m h).
Proof.
  intros Hm Hh w. unfold try_except. specialize (Hm w).
  destruct (m w) as [[a|e] w1]; simpl in *; auto.
  now rewrite (Hh e w1).
Qed.

Lemma keeps_get_config {X} (proj : world -> X) : keeps proj get_config.
Proof. intros w. reflexivity. Qed.

Lemma keeps_config_getitem {X} (proj : world -> X) k : keeps proj (config_getitem k).
Proof.
  unfold config_getitem. apply keeps_bind; [apply keeps_get_config |].
  intros. apply keeps_lift.
Qed.

Lemma keeps_map_m {X A} (proj : world -> X) (f : pyval -> M A) l :
  (forall x, keeps proj (f x)) -> keeps proj (map_m f l).
Proof.
  intros Hf. induction l as [|x r IH]; simpl; [apply keeps_ret |].
  apply keeps_bind; auto. intros y.
  apply keeps_bind; auto. intros. apply keeps_ret.
Qed.

Lemma keeps_TwitterAccount_of {X} (proj : world -> X) v : keeps proj (TwitterAccount_of v).
Proof.
  unfold TwitterAccount_of. apply keeps_bind; [apply keeps_lift |].
  intros d. destruct (forallb _ d); [|apply keeps_raise].
  destruct (dict_get "username" d); [|apply keeps_raise].
  destruct (dict_get "user_id" d); [apply keeps_ret | apply keeps_raise].
Qed.

Lemma get_accounts_reads w : snd (get_accounts w) = w.
Proof.
  apply (@keeps_bind world _ _ (fun w => w)); [apply keeps_config_getitem |].
  intros v. apply keeps_bind; [apply keeps_lift |].
  intros l. apply keeps_map_m. intros x. apply keeps_TwitterAccount_of.
Qed.

Lemma TwitterAccount_of_like v w :
  (account_like v = true -> exists a, TwitterAccount_of v w = (Ok a, w)
                                      /\ py_getitem v "username" = Ok (username a)
                                      /\ py_getitem v "user_id" = Ok (user_id a))
  /\ (account_like v = false -> TwitterAccount_of v w = (Raise TypeError, w)).
Proof.
  unfold TwitterAccount_of, account_like, bind.
  destruct v as [| | | | |d]; simpl; try (split; [discriminate | reflexivity]).
  destruct (forallb (fun kv => account_field (fst kv)) d); simpl;
    [|split; [discriminate | reflexivity]].
  destruct (dict_get "username" d) as [u|]; [|split; [discriminate | reflexivity]].
  destruct (dict_get "user_id" d) as [i|]; [|split; [discriminate | reflexivity]].
  split; [|discriminate]. intros _. eexists. split; [reflexivity |]. simpl. auto.
Qed.

Lemma map_m_account_like items w :
  (forallb account_like items = true ->
   exists l, map_m TwitterAccount_of items w = (Ok l, w)
             /\ Forall2 (fun v a => py_getitem v "username" = Ok (username a)
                                     /\ py_getitem v "user_id" = Ok (user_id a))
                        items l)
  /\ (forallb account_like items = false ->
      map_m TwitterAccount_of items w = (Raise TypeError, w)).
Proof.
  induction items as [|v r [IHok IHbad]]; simpl.
  - split; [|discriminate]. intros _. exists []. split; [reflexivity | constructor].
  - destruct (TwitterAccount_of_like v w) as [Hok Hbad].
    unfold bind. destruct (account_like v); simpl.
    + destruct (Hok eq_refl) as [a [Ha Hfields]]. rewrite Ha. split.
      * intros Hr. destruct (IHok Hr) as [l [Hl Hall]]. rewrite Hl.
        exists (a :: l). split; [reflexivity | now constructor].
      * intros Hr. now rewrite (IHbad Hr).
    + split; [discriminate |]. intros _. now rewrite (Hbad eq_refl).
Qed.

(** X6: [get_accounts] only reads: it never changes the world.  It returns
    one [TwitterAccount] per element of the account list, with the username
    and user id of that element, when every element is a dict whose keys
    are fields of [TwitterAccount] and include [username] and [user_id];
    when an element is anything else (a key the class does not know, a
    missing user id, a value that is not a dict) it raises [TypeError]. *)
Theorem get_accounts_accepts (w : world) (items : list pyval) :
  dict_get "monitored_accounts" (config w) = Some (PList items) ->
  snd (get_accounts w) = w
  /\ (forallb account_like items = true ->
      exists l, get_accounts w = (Ok l, w)
                /\ Forall2 (fun v a => py_getitem v "username" = Ok (username a)
                                        /\ py_getitem v "user_id" = Ok (user_id a))
                           items l)
  /\ (forallb account_like items = false ->
      get_accounts w = (Raise TypeError, w)).
Proof.
  intros Hcfg. split; [apply get_accounts_reads |].
  assert (Hrun : get_accounts w = map_m TwitterAccount_of items w).
  { unfold get_accounts, config_getitem, bind, get_config, lift. simpl.
    now rewrite Hcfg. }
  rewrite Hrun. apply map_m_account_like.
Qed.

Lemma get_accounts_accepts_witness :
  dict_get "monitored_accounts" (config odd_world)
  = Some (PList [entry_dict bob;
                 PDict [("username", PStr "eve"); ("user_id", PStr "9");
                        ("note", PStr "added by hand")]])
  /\ get_accounts odd_world = (Raise TypeError, odd_world).
Proof.
  split; [reflexivity |].
  destruct (get_accounts_accepts odd_world _ eq_refl) as [_ [_ Hbad]].
  apply Hbad. reflexivity.
Defined.

(** * The scheduler *)

Lemma monitoring_loop_returns E chat rounds : forall w,
  fst (monitoring_loop E rounds chat w) = Ok tt.
Proof.
  induction rounds as [|n IH]; intros w; simpl; auto.
  unfold bind. pose proof (monitoring_round_returns E chat w) as H.
  destruct (monitoring_round E chat w) as [[[]|e] w1]; simpl in H.
  - apply IH.
  - discriminate.
Qed.

Lemma clock_after_ge evs : forall c, (c <= clock_after c evs)%Z.
Proof.
  induction evs as [|ev r IH]; intros c; simpl; [lia |].
  destruct ev; try apply IH. specialize (IH (c + Z.max 0 seconds)%Z). lia.
Qed.

(** X7: the monitoring loop returns normally after any number of passes,
    for every configuration (well formed or not), every state of the world
    and every behaviour of the feed, of Telegram and of the file system;
    it only adds to the trace and never turns the clock back. *)
Theorem monitoring_loop_never_raises (E : env) (chat : string) (rounds : nat) (w : world) :
  exists w' evs,
    monitoring_loop E rounds chat w = (Ok tt, w')
    /\ trace w' = trace w ++ evs
    /\ (clock w <= clock w')%Z.
Proof.
  pose proof (monitoring_loop_returns E chat rounds w) as Hok.
  destruct (timed_monitoring_loop E chat rounds w) as [evs [Htr [_ Hclock]]].
  destruct (monitoring_loop E rounds chat w) as [r w']. simpl in *. subst r.
  exists w', evs. split; [reflexivity |]. split; [exact Htr |].
  rewrite Hclock. apply clock_after_ge.
Qed.

(** X8: when [get_accounts] raises (a malformed account list), the pass of
    the monitoring loop asks the feed nothing, sends nothing and writes
    nothing: it logs the error and sleeps 10 instead of the check
    interval. *)
Theorem monitoring_round_bad_accounts (E : env) (chat : string) (w : world) (e : exn) :
  fst (get_accounts w) = Raise e ->
  monitoring_round E chat w
  = (Ok tt,
     mkWorld (config w) (disk w) (clock w + 10)
             (trace w ++ [EvLog "Error in monitoring loop"; EvSleep 10])
             (gets w) (sends w) (saves w)).
Proof.
  intros Hraise. pose proof (get_accounts_reads w) as Hsame.
  unfold monitoring_round. rewrite try_except_bind.
  destruct (get_accounts w) as [r w1]. simpl in *. subst r w1.
  unfold bind, log, sleep, emit, tick, bind, with_trace, with_clock. simpl.
  now rewrite <- app_assoc.
Qed.

Lemma monitoring_round_bad_accounts_witness :
  fst (get_accounts odd_world) = Raise TypeError
  /\ exists w',
       monitoring_round quiet_env "chat" odd_world = (Ok tt, w')
       /\ clock w' = 10%Z /\ gets w' = 0%nat /\ saves w' = 0%nat.
Proof.
  split; [reflexivity |].
  eexists. split; [exact (monitoring_round_bad_accounts quiet_env "chat" odd_world
                            TypeError eq_refl) |].
  repeat split; reflexivity.
Defined.

(** * The requests to the feed *)

(** X9: [get_recent_tweets] never raises and makes exactly one request; it
    leaves the configuration, the file and the counters of sent messages
    and of writes alone; and it returns something else than the empty list
    only when the answer has status 200 and is a JSON object that holds
    the returned value under ["data"]. *)
Theorem get_recent_tweets_total (E : env) (uid since : pyval) (w : world) :
  exists v w',
    get_recent_tweets E uid since w = (Ok v, w')
    /\ config w' = config w /\ disk w' = disk w
    /\ sends w' = sends w /\ saves w' = saves w
    /\ gets w' = S (gets w)
    /\ (v <> PList [] ->
        exists body,
          feed E (gets w) uid (since_param since) = HttpResponse 200 (Some (PDict body))
          /\ dict_get "data" body = Some v).
Proof.
  unfold get_recent_tweets, try_except, bind. simpl.
  destruct (feed E (gets w) uid (since_param since)) as [|status json] eqn:Hfeed;
    simpl.
  { eexists; eexists; split; [reflexivity |]. repeat split; auto. congruence. }
  destruct (status =? 200)%Z eqn:Hs.
  - apply Z.eqb_eq in Hs. subst status.
    destruct json as [data|]; simpl.
    + destruct data; simpl;
        (eexists; eexists; split; [reflexivity |]); repeat split; auto;
        try congruence.
      intros Hv. exists d. split; auto. unfold dict_get_default in *.
      destruct (dict_get "data" d); congruence.
    + eexists; eexists; split; [reflexivity |]. repeat split; auto. congruence.
  - destruct (status =? 429)%Z; simpl;
      (eexists; eexists; split; [reflexivity |]); repeat split; auto; congruence.
Qed.

Lemma get_user_id_cases (answer : http_outcome) (u : string) (w : world) :
  exists v w',
    get_user_id answer u w = (Ok v, w')
    /\ config w' = config w /\ disk w' = disk w /\ clock w' = clock w
    /\ (v <> PNone ->
        exists body user,
          answer = HttpResponse 200 (Some (PDict body))
          /\ dict_get "data" body = Some (PDict user)
          /\ dict_get "id" user = Some v
          /\ w' = w).
Proof.
  unfold get_user_id, try_except, bind.
  destruct answer as [|status json]; simpl.
  { eexists; eexists; split; [reflexivity |]. repeat split; auto. congruence. }
  destruct (status =? 200)%Z eqn:Hs.
  - apply Z.eqb_eq in Hs. subst status.
    destruct json as [data|]; simpl;
      [|eexists; eexists; split; [reflexivity |]; repeat split; auto; congruence].
    destruct data as [| | | | |body]; simpl;
      try (eexists; eexists; split; [reflexivity |]; repeat split; auto; congruence).
    unfold dict_get_default.
    destruct (dict_get "data" body) as [user|] eqn:Hdata; simpl;
      [|eexists; eexists; split; [reflexivity |]; repeat split; auto;
        intros H; now elim H].
    destruct user as [| | | | |user]; simpl;
      try (eexists; eexists; split; [reflexivity |]; repeat split; auto; congruence).
    eexists; eexists; split; [reflexivity |]. repeat split; auto.
    intros Hv. exists body, user. repeat split; auto.
    unfold dict_get_default in *. destruct (dict_get "id" user); congruence.
  - simpl. eexists; eexists; split; [reflexivity |]. repeat split; auto. congruence.
Qed.

(** X10: [get_user_id] never raises and never changes the configuration;
    it returns something else than [None] only when the answer has status
    200 and is a JSON object whose ["data"] is an object that holds the
    returned value under ["id"]. *)
Theorem get_user_id_total (answer : http_outcome) (u : string) (w : world) :
  exists v w',
    get_user_id answer u w = (Ok v, w')
    /\ config w' = config w /\ disk w' = disk w /\ clock w' = clock w
    /\ (v <> PNone ->
        exists body user,
          answer = HttpResponse 200 (Some (PDict body))
          /\ dict_get "data" body = Some (PDict user)
          /\ dict_get "id" user = Some v
          /\ w' = w).
Proof. exact (get_user_id_cases answer u w). Qed.

(** * Deliveries *)

(** X11: [send_tweet_to_telegram] never raises, whatever the tweet is and
    whether Telegram accepts the message or not, and leaves the
    configuration, the file, the clock and the request counter alone.  For
    a tweet that is a dict it calls [send_message] exactly once; for
    anything else it calls nothing and logs the failure. *)
Theorem send_tweet_to_telegram_total (E : env) (tweet uname : pyval) (chat : string)
    (w : world) :
  exists w',
    send_tweet_to_telegram E tweet uname chat w = (Ok tt, w')
    /\ config w' = config w /\ disk w' = disk w /\ clock w' = clock w
    /\ gets w' = gets w /\ saves w' = saves w
    /\ match tweet with
       | PDict _ =>
           sends w' = S (sends w)
           /\ sends_of (trace w')
              = sends_of (trace w)
                ++ [(message_of chat uname tweet,
                     telegram E (sends w) (message_of chat uname tweet))]
       | _ =>
           sends w' = sends w
           /\ trace w' = trace w ++ [EvLog "Failed to send tweet"]
       end.
Proof.
  destruct tweet as [| | | | |d];
    try (unfold send_tweet_to_telegram, try_except, bind; simpl;
         eexists; split; [reflexivity |]; repeat split; reflexivity).
  rewrite send_tweet_to_telegram_dict.
  eexists. split; [reflexivity |]. simpl. repeat split; auto.
  generalize (trace w). intros tr.
  induction tr as [|ev r IH]; simpl; [reflexivity |].
  destruct ev; simpl; auto. now rewrite IH.
Qed.

Lemma tweet_key_fails t w :
  tweet_number t = None -> exists e, tweet_key t w = (Raise e, w).
Proof.
  unfold tweet_number, tweet_key, bind, lift.
  destruct (py_getitem t "id") as [v|e]; [|eauto].
  destruct (py_int v) as [n|e]; [discriminate | eauto].
Qed.

Lemma map_m_tweet_key_fails tweets w :
  Exists (fun t => tweet_number t = None) tweets ->
  exists e, map_m tweet_key tweets w = (Raise e, w).
Proof.
  induction tweets as [|t r IH]; intros H; [inversion H |].
  simpl. unfold bind.
  destruct (tweet_number t) as [n|] eqn:Hn.
  - rewrite (tweet_key_number t n w Hn).
    inversion H as [? ? Ht | ? ? Hr]; subst; [congruence |].
    destruct (IH Hr) as [e He]. rewrite He. eauto.
  - destruct (tweet_key_fails t w Hn) as [e He]. rewrite He. eauto.
Qed.

(** X12: when one of the fetched tweets has no id that [int] reads, no
    tweet of the answer is sent and no watermark is written: the sort
    raises before the first delivery, and [check_account] only logs the
    error. *)
Theorem check_account_bad_id (E : env) (a : TwitterAccount) (chat : string)
    (w : world) (body : pydict) (tweets : list pyval) :
  feed E (gets w) (user_id a) (since_param (last_tweet_id a))
  = HttpResponse 200 (Some (PDict body)) ->
  dict_get "data" body = Some (PList tweets) ->
  Exists (fun t => tweet_number t = None) tweets ->
  check_account E a chat w
  = (Ok tt,
     mkWorld (config w) (disk w) (clock w)
             (trace w ++ [EvGet (clock w) (user_id a) (since_param (last_tweet_id a));
                          EvLog "Error checking account"])
             (S (gets w)) (sends w) (saves w)).
Proof.
  intros Hfeed Hdata Hbad.
  unfold check_account. rewrite try_except_bind.
  rewrite (get_recent_tweets_data E _ _ body w Hfeed).
  unfold dict_get_default. rewrite Hdata.
  set (w0 := mkWorld _ _ _ _ _ _ _).
  destruct (map_m_tweet_key_fails tweets w0 Hbad) as [e He].
  destruct tweets as [|t r]; [inversion Hbad |].
  change (py_truthy (PList (t :: r))) with true. cbv iota.
  rewrite try_except_bind. unfold py_sort, bind. rewrite He.
  subst w0. unfold log, emit, with_trace. simpl. now rewrite <- app_assoc.
Qed.

Lemma check_account_bad_id_witness :
  Exists (fun t => tweet_number t = None) [tw "5"; PDict [("id", PStr "five")]]
  /\ exists w',
       check_account garbled_env (account_of bob) "chat" bob_world = (Ok tt, w')
       /\ config w' = config bob_world
       /\ sends w' = 0%nat.
Proof.
  assert (Hbad : Exists (fun t => tweet_number t = None)
                        [tw "5"; PDict [("id", PStr "five")]]).
  { apply Exists_cons_tl. apply Exists_cons_hd. reflexivity. }
  split; [exact Hbad |].
  eexists. split.
  - exact (check_account_bad_id garbled_env (account_of bob) "chat" bob_world
             _ _ eq_refl eq_refl Hbad).
  - split; reflexivity.
Defined.

Lemma sends_of_app a b : sends_of (a ++ b) = sends_of a ++ sends_of b.
Proof.
  induction a as [|ev r IH]; simpl; auto. destruct ev; simpl; congruence.
Qed.

Lemma watermarks_of_app a b : watermarks_of (a ++ b) = watermarks_of a ++ watermarks_of b.
Proof.
  induction a as [|ev r IH]; simpl; auto. destruct ev; simpl; congruence.
Qed.

Lemma for_each_process_tweet_unknown E a u chat accs ts : forall w,
  username a = PStr u ->
  stored accs w ->
  find (same_user u) accs = None ->
  Forall (fun t => tweet_number t <> None) ts ->
  exists w' evs,
    for_each (process_tweet E a chat) ts w = (Ok tt, w')
    /\ config w' = config w
    /\ trace w' = trace w ++ evs
    /\ map fst (sends_of evs) = map (message_of chat (PStr u)) ts
    /\ watermarks_of evs = [].
Proof.
  induction ts as [|t r IH]; intros w Ha Hst Hfind Hnum.
  - exists w, []. simpl. rewrite app_nil_r. auto.
  - inversion Hnum as [|? ? Ht Hr]; subst.
    destruct (numbered_tweet t Ht) as [d [-> Hid]].
    simpl for_each. unfold bind at 1. unfold process_tweet at 1. rewrite Ha.
    unfold bind at 1. rewrite send_tweet_to_telegram_dict.
    unfold bind at 1. unfold lift, py_getitem. rewrite Hid.
    unfold bind at 1.
    rewrite (update_last_tweet_stored u _ accs); [|exact Hst].
    rewrite Hfind. unfold sleep, bind, emit, tick, with_trace, with_clock. simpl.
    match goal with |- context [for_each _ r ?w1] =>
      destruct (IH w1 Ha Hst Hfind Hr) as [w' [evs [Hrun [Hc [Htr [Hs Hw]]]]]]
    end.
    rewrite Hrun. eexists. eexists. split; [reflexivity |].
    split; [exact Hc |]. simpl in Htr.
    split; [rewrite Htr, <- !app_assoc; reflexivity |].
    simpl. split; [now rewrite Hs | exact Hw].
Qed.

(** X13: for an account that is no longer in the list (removed after the
    round took its snapshot), [check_account] still sends every fetched
    tweet, in ascending order, and then finds no watermark to write: the
    configuration stays as it was. *)
Theorem check_account_unknown_account (E : env) (a : TwitterAccount) (u : string)
    (accs : list entry) (chat : string) (w : world) (body : pydict)
    (tweets : list pyval) :
  username a = PStr u ->
  stored accs w ->
  ~ In (str_lower u) (map handle accs) ->
  feed E (gets w) (user_id a) (since_param (last_tweet_id a))
  = HttpResponse 200 (Some (PDict body)) ->
  dict_get "data" body = Some (PList tweets) ->
  Forall (fun t => tweet_number t <> None) tweets ->
  exists w' evs,
    check_account E a chat w = (Ok tt, w')
    /\ config w' = config w
    /\ trace w' = trace w ++ evs
    /\ map fst (sends_of evs) = map (message_of chat (PStr u)) (sorted_tweets tweets)
    /\ watermarks_of evs = [].
Proof.
  intros Ha Hst Hnin Hfeed Hdata Hnum.
  assert (Hfind : find (same_user u) accs = None).
  { destruct (find (same_user u) accs) as [e|] eqn:Hf; auto.
    apply find_some in Hf. destruct Hf as [Hin He].
    apply String.eqb_eq in He. elim Hnin. rewrite <- He. now apply in_map. }
  unfold check_account. rewrite try_except_bind.
  rewrite (get_recent_tweets_data E _ _ body w Hfeed).
  unfold dict_get_default. rewrite Hdata.
  set (w0 := mkWorld _ _ _ _ _ _ _).
  destruct tweets as [|t r].
  - exists w0, [EvGet (clock w) (user_id a) (since_param (last_tweet_id a))].
    simpl. auto.
  - change (py_truthy (PList (t :: r))) with true. cbv iota.
    rewrite try_except_bind. rewrite (py_sort_tweets _ w0 Hnum).
    assert (Hnum' : Forall (fun x => tweet_number x <> None) (sorted_tweets (t :: r)))
      by (eapply Permutation_Forall; [apply sorted_tweets_perm | exact Hnum]).
    destruct (for_each_process_tweet_unknown E a u chat accs _ w0 Ha Hst Hfind Hnum')
      as [w' [evs [Hrun [Hc [Htr [Hs Hw]]]]]].
    unfold try_except. rewrite Hrun.
    exists w', (EvGet (clock w) (user_id a) (since_param (last_tweet_id a)) :: evs).
    split; [reflexivity |]. split; [exact Hc |].
    split; [rewrite Htr; subst w0; simpl; now rewrite <- app_assoc |].
    simpl. auto.
Qed.

Lemma check_account_unknown_account_witness :
  stored [] fresh_world
  /\ exists w' evs,
       check_account example_env (account_of bob) "chat" fresh_world = (Ok tt, w')
       /\ config w' = config fresh_world
       /\ trace w' = trace fresh_world ++ evs
       /\ List.length (sends_of evs) = 3%nat.
Proof.
  split; [reflexivity |].
  assert (Hnum : Forall (fun t => tweet_number t <> None) [tw "5"; tw "3"; tw "9"]).
  { repeat constructor; discriminate. }
  destruct (check_account_unknown_account example_env (account_of bob) "Bob" []
              "chat" fresh_world [("data", PList [tw "5"; tw "3"; tw "9"])]
              [tw "5"; tw "3"; tw "9"] eq_refl eq_refl (fun H => H)
              eq_refl eq_refl Hnum)
    as [w' [evs [Hrun [Hc [Htr [Hs _]]]]]].
  exists w', evs. repeat (split; [assumption |]).
  rewrite <- (length_map fst), Hs, length_map.
  now rewrite <- (Permutation_length (sorted_tweets_perm _)).
Defined.

(** * Writing the configuration *)

Lemma save_config_writes (E : env) (w : world) :
  exists w',
    save_config E w = (Ok tt, w')
    /\ config w' = config w
    /\ saves w' = S (saves w)
    /\ (storage E (saves w) = IoOk ->
        disk w' = Some (json_dumps (PDict (config w)))).
Proof.
  unfold save_config, try_except, bind. simpl.
  destruct (storage E (saves w)); simpl;
    (eexists; split; [reflexivity |]); repeat split; auto; discriminate.
Qed.

(** X14: [save_config] never raises and never changes the configuration;
    it counts one write.  When the write succeeds the file holds the
    serialised configuration; when the file cannot be opened it keeps its
    old content; when the write fails after the file was opened for
    writing, the file is left empty.  Both failures are logged. *)
Theorem save_config_outcomes (E : env) (w : world) :
  exists w',
    save_config E w = (Ok tt, w')
    /\ config w' = config w /\ clock w' = clock w
    /\ gets w' = gets w /\ sends w' = sends w
    /\ saves w' = S (saves w)
    /\ match storage E (saves w) with
       | IoOk =>
           disk w' = Some (json_dumps (PDict (config w)))
           /\ trace w' = trace w ++ [EvWrite (json_dumps (PDict (config w)))]
       | IoOpenFails =>
           disk w' = disk w
           /\ trace w' = trace w ++ [EvLog "Error saving config"]
       | IoWriteFails =>
           disk w' = Some EmptyString
           /\ trace w' = trace w ++ [EvLog "Error saving config"]
       end.
Proof.
  unfold save_config, try_except, bind. simpl.
  destruct (storage E (saves w)); simpl;
    (eexists; split; [reflexivity |]); repeat split; reflexivity.
Qed.

(** * A pass of the monitoring loop and the file *)

Create HintDb keeps.
#[local] Hint Resolve keeps_ret keeps_raise keeps_lift keeps_get_config
  keeps_config_getitem : keeps.

Ltac keeps_step :=
  match goal with
  | |- keeps _ (bind _ _) => apply keeps_bind; [|intros]
  | |- keeps _ (try_except _ _) => apply keeps_try; [|intros]
  | |- keeps _ (if ?b then _ else _) => destruct b
  | |- keeps _ (match ?x with _ => _ end) => destruct x
  | |- keeps _ _ => solve [auto with keeps | intros ?; reflexivity]
  end.

Ltac keeps_auto := repeat keeps_step.

Lemma keeps_file_for_each {A} (f : A -> M unit) l :
  (forall x, keeps file_part (f x)) -> keeps file_part (for_each f l).
Proof. intros Hf. induction l; simpl; keeps_auto. Qed.

Lemma keeps_file_username_is u acc : keeps file_part (username_is u acc).
Proof. unfold username_is. keeps_auto. Qed.

Lemma keeps_file_config_setitem k v : keeps file_part (config_setitem k v).
Proof. unfold config_setitem. keeps_auto. Qed.

#[local] Hint Resolve keeps_file_username_is keeps_file_config_setitem : keeps.

Lemma keeps_file_update_loop u i rest : forall seen,
  keeps file_part (update_loop u i seen rest).
Proof. induction rest; intros seen; simpl; keeps_auto. Qed.

Lemma keeps_file_update_last_tweet u i : keeps file_part (update_last_tweet u i).
Proof. unfold update_last_tweet. keeps_auto. apply keeps_file_update_loop. Qed.

Lemma keeps_file_sleep n : keeps file_part (sleep n).
Proof. unfold sleep. keeps_auto. Qed.

Lemma keeps_file_log t : keeps file_part (log t).
Proof. intros w. reflexivity. Qed.

#[local] Hint Resolve keeps_file_update_last_tweet keeps_file_sleep keeps_file_log
  : keeps.

Lemma keeps_file_get_recent_tweets E u s : keeps file_part (get_recent_tweets E u s).
Proof. unfold get_recent_tweets. keeps_auto. Qed.

Lemma keeps_file_send_tweet_to_telegram E t u c :
  keeps file_part (send_tweet_to_telegram E t u c).
Proof. unfold send_tweet_to_telegram. keeps_auto. Qed.

Lemma keeps_file_py_sort v : keeps file_part (py_sort tweet_key v).
Proof.
  unfold py_sort. destruct v; keeps_auto.
  apply keeps_map_m. intros x. unfold tweet_key. keeps_auto.
Qed.

#[local] Hint Resolve keeps_file_get_recent_tweets keeps_file_send_tweet_to_telegram
  keeps_file_py_sort : keeps.

Lemma keeps_file_check_account E a chat : keeps file_part (check_account E a chat).
Proof.
  unfold check_account. keeps_auto.
  apply keeps_file_for_each. intros x. unfold process_tweet. keeps_auto.
Qed.

Lemma keeps_file_pause :
  keeps file_part
        (try_except (interval <- config_getitem "check_interval" ;; py_sleep interval)
                    (fun _ => log "Error in monitoring loop" ;; sleep 10)).
Proof. unfold py_sleep. keeps_auto. Qed.

Lemma pause_returns w :
  fst (try_except (interval <- config_getitem "check_interval" ;; py_sleep interval)
                  (fun _ => log "Error in monitoring loop" ;; sleep 10) w) = Ok tt.
Proof.
  unfold try_except.
  match goal with |- fst (let (r, w') := ?m w in _) = _ => destruct (m w) as [[[]|e] w'] end;
    reflexivity.
Qed.



(** X16: a pass of the monitoring loop over a non-empty account list writes
    the configuration file exactly once, after all accounts were checked;
    when that write succeeds, the file holds at the end of the pass the
    serialisation of the configuration as it is then, with every watermark
    written during the pass. *)
Theorem monitoring_round_saves (E : env) (chat : string) (w : world)
    (a : TwitterAccount) (rest : list TwitterAccount) :
  get_accounts w = (Ok (a :: rest), w) ->
  storage E (saves w) = IoOk ->
  exists w',
    monitoring_round E chat w = (Ok tt, w')
    /\ saves w' = S (saves w)
    /\ disk w' = Some (json_dumps (PDict (config w'))).
Proof.
  intros Hget Hio.
  set (tail := interval <- config_getitem "check_interval" ;; py_sleep interval).
  set (h := fun _ : exn => log "Error in monitoring loop" ;; sleep 10).
  unfold monitoring_round. fold tail. fold h.
  rewrite try_except_bind, Hget. cbv iota. rewrite try_except_bind.
  pose proof (for_each_check_account_returns E chat (a :: rest) w) as Hok.
  pose proof (keeps_file_for_each (fun x => check_account E x chat) (a :: rest)
                (fun x => keeps_file_check_account E x chat) w) as Hfile.
  unfold bind at 1.
  destruct (for_each (fun x => check_account E x chat) (a :: rest) w) as [r w1].
  simpl in Hok, Hfile. subst r. injection Hfile as Hdisk Hsaves.
  rewrite <- Hsaves in Hio. rewrite (save_config_ok E w1 Hio).
  set (w2 := mkWorld _ _ _ _ _ _ _).
  pose proof (pause_returns w2) as Hret. fold tail in Hret. fold h in Hret.
  pose proof (keeps_file_pause w2) as Hkeep. fold tail in Hkeep. fold h in Hkeep.
  assert (Hcfg : config (snd (try_except tail h w2)) = config w2).
  { assert (Hh : harmless (try_except tail h)).
    { subst tail h. apply harmless_try.
      - apply harmless_bind; [apply harmless_config_getitem |].
        intros. apply harmless_py_sleep.
      - intros. harmless_auto. }
    apply Hh. }
  destruct (try_except tail h w2) as [r w']. simpl in *. subst r.
  exists w'. split; [reflexivity |].
  injection Hkeep as Hd Hs. rewrite Hs, Hd, Hcfg. subst w2. simpl. auto.
Qed.

Lemma monitoring_round_saves_witness :
  get_accounts bob_world = (Ok [account_of bob], bob_world)
  /\ exists w',
       monitoring_round example_env "chat" bob_world = (Ok tt, w')
       /\ saves w' = 1%nat
       /\ disk w' = Some (json_dumps (PDict (config w'))).
Proof.
  split; [reflexivity |].
  destruct (monitoring_round_saves example_env "chat" bob_world (account_of bob) []
              eq_refl eq_refl) as [w' H].
  exists w'. exact H.
Defined.

(** * The command handlers *)

Lemma reply_text_run r accepted w :
  reply_text r accepted w
  = ((if accepted then Ok r else Raise TelegramError), w).
Proof. destruct accepted; reflexivity. Qed.

(** X17: [cmd_add_account] changes the configuration only when the monitor
    is set, a username was given, and the request of the user id was
    answered with status 200 and a JSON object that holds a true id under
    ["data"]["id"].  In particular a failed or unanswered request adds
    nothing. *)
Theorem cmd_add_account_guard (E : env) (monitor : bool) (args : list string)
    (answer : http_outcome) (accepted : bool) (w : world) :
  config (snd (cmd_add_account E monitor args answer accepted w)) <> config w ->
  monitor = true
  /\ exists arg rest body user id,
       args = arg :: rest
       /\ answer = HttpResponse 200 (Some (PDict body))
       /\ dict_get "data" body = Some (PDict user)
       /\ dict_get "id" user = Some id
       /\ py_truthy id = true.
Proof.
  unfold cmd_add_account.
  destruct args as [|arg rest]; [rewrite reply_text_run; simpl; congruence |].
  destruct monitor; cbn [negb];
    [|rewrite reply_text_run; simpl; congruence].
  destruct (get_user_id_cases answer (clean_username arg) w)
    as [v [w1 [Hrun [Hc [_ [_ Hv]]]]]].
  unfold bind at 1. rewrite Hrun.
  destruct (py_truthy v) eqn:Htrue; cbn [negb];
    [|rewrite reply_text_run; simpl; congruence].
  intros _. split; [reflexivity |].
  destruct Hv as [body [user [Ha [Hd [Hi _]]]]]; [intros ->; discriminate |].
  exists arg, rest, body, user, v. auto.
Qed.

Lemma cmd_add_account_guard_witness :
  config (snd (cmd_add_account quiet_env true ["@alice"] (found "12") true bob_world))
  <> config bob_world
  /\ exists body user id,
       found "12" = HttpResponse 200 (Some (PDict body))
       /\ dict_get "data" body = Some (PDict user)
       /\ dict_get "id" user = Some id.
Proof.
  assert (Hchanged : config (snd (cmd_add_account quiet_env true ["@alice"]
                                    (found "12") true bob_world))
                     <> config bob_world) by (vm_compute; discriminate).
  split; [exact Hchanged |].
  destruct (cmd_add_account_guard quiet_env true ["@alice"] (found "12") true
              bob_world Hchanged)
    as [_ [arg [rest [body [user [id [_ [Ha [Hd [Hi _]]]]]]]]]].
  exists body, user, id. auto.
Defined.

Lemma get_user_id_found body user id u w :
  dict_get "data" body = Some (PDict user) ->
  dict_get "id" user = Some id ->
  get_user_id (HttpResponse 200 (Some (PDict body))) u w = (Ok id, w).
Proof.
  intros Hd Hi. unfold get_user_id, try_except, bind. simpl.
  unfold dict_get_default. rewrite Hd. simpl. unfold dict_get_default. now rewrite Hi.
Qed.

(** X18: on a well-formed account list, when the user id is found,
    [cmd_add_account] stores the account under the cleaned username with
    the watermark [None] and writes the configuration file once, unless an
    account with that handle is stored already: then it changes nothing
    and writes nothing.  The account is stored and the file written also
    when the reply cannot be sent. *)
Theorem cmd_add_account_adds (E : env) (accs : list entry) (w : world)
    (arg : string) (rest : list string) (body user : pydict) (id : pyval)
    (accepted : bool) :
  stored accs w ->
  dict_get "data" body = Some (PDict user) ->
  dict_get "id" user = Some id ->
  py_truthy id = true ->
  let u := clean_username arg in
  let run := cmd_add_account E true (arg :: rest)
                             (HttpResponse 200 (Some (PDict body))) accepted w in
  (In (str_lower u) (map handle accs) ->
   run = ((if accepted then Ok (ReplyAlready u) else Raise TelegramError), w))
  /\ (~ In (str_lower u) (map handle accs) ->
      exists w',
        run = ((if accepted then Ok (ReplyAdded u) else Raise TelegramError), w')
        /\ stored (accs ++ [mkEntry u id PNone]) w'
        /\ saves w' = S (saves w)
        /\ (storage E (saves w) = IoOk ->
            disk w' = Some (json_dumps (PDict (config w'))))).
Proof.
  intros Hst Hd Hi Htrue u run.
  assert (Hrun : run
                 = if has_handle (str_lower u) accs
                   then reply_text (ReplyAlready u) accepted w
                   else (save_config E ;;
                         r <- reply_text (ReplyAdded u) accepted ;;
                         log "Added to monitoring" ;;
                         ret r) (store (accs ++ [mkEntry u id PNone]) w)).
  { subst run u. unfold cmd_add_account. cbv zeta.
    generalize (clean_username arg). intros u. cbn [negb].
    unfold bind at 1. rewrite (get_user_id_found body user id u w Hd Hi).
    rewrite Htrue. cbn [negb].
    unfold bind at 1. rewrite (add_account_stored u id accs w Hst), existsb_same_user.
    now destruct (has_handle (str_lower u) accs). }
  rewrite Hrun. clear Hrun run. generalize u. clear u. intros u.
  split.
  - intros Hin. apply has_handle_In in Hin. rewrite Hin. apply reply_text_run.
  - intros Hnin.
    assert (Hh : has_handle (str_lower u) accs = false).
    { destruct (has_handle (str_lower u) accs) eqn:H; auto.
      apply has_handle_In in H. contradiction. }
    rewrite Hh.
    set (w1 := store (accs ++ [mkEntry u id PNone]) w).
    destruct (save_config_writes E w1) as [w2 [Hsave [Hc [Hs Hio]]]].
    unfold bind at 1. rewrite Hsave.
    unfold bind at 1. rewrite reply_text_run.
    assert (Hst2 : stored (accs ++ [mkEntry u id PNone]) w2).
    { eapply stored_config; [exact Hc | apply stored_store]. }
    assert (Hdisk : storage E (saves w) = IoOk ->
                    disk w2 = Some (json_dumps (PDict (config w2)))).
    { intros Hok. rewrite Hc. apply Hio. exact Hok. }
    destruct accepted.
    + eexists. split; [reflexivity |]. simpl. auto.
    + exists w2. auto.
Qed.

Lemma cmd_add_account_adds_witness :
  stored [bob] bob_world
  /\ cmd_add_account quiet_env true ["@BOB"] (found "77") true bob_world
     = (Ok (ReplyAlready "BOB"), bob_world)
  /\ exists w',
       cmd_add_account quiet_env true ["@alice"] (found "12") true bob_world
       = (Ok (ReplyAdded "alice"), w')
       /\ stored [bob; mkEntry "alice" (PStr "12") PNone] w'
       /\ disk w' = Some (json_dumps (PDict (config w'))).
Proof.
  split; [reflexivity |].
  destruct (cmd_add_account_adds quiet_env [bob] bob_world "@BOB" []
              [("data", PDict [("id", PStr "77")])] [("id", PStr "77")] (PStr "77")
              true eq_refl eq_refl eq_refl eq_refl) as [Hdup _].
  destruct (cmd_add_account_adds quiet_env [bob] bob_world "@alice" []
              [("data", PDict [("id", PStr "12")])] [("id", PStr "12")] (PStr "12")
              true eq_refl eq_refl eq_refl eq_refl) as [_ Hnew].
  split.
  - apply Hdup. now left.
  - destruct Hnew as [w' [Hrun [Hst [_ Hdisk]]]].
    + intros [H | []]. discriminate.
    + exists w'. split; [exact Hrun |]. split; [exact Hst |]. now apply Hdisk.
Defined.

(** X19: on a well-formed account list [cmd_remove_account] removes every
    account with the handle of the cleaned username and writes the
    configuration file once; when no account has that handle it changes
    nothing and writes nothing. *)
Theorem cmd_remove_account_removes (E : env) (accs : list entry) (w : world)
    (arg : string) (rest : list string) (accepted : bool) :
  stored accs w ->
  let u := clean_username arg in
  let run := cmd_remove_account E (arg :: rest) accepted w in
  (~ In (str_lower u) (map handle accs) ->
   run = ((if accepted then Ok (ReplyNotMonitored u) else Raise TelegramError), w))
  /\ (In (str_lower u) (map handle accs) ->
      exists w',
        run = ((if accepted then Ok (ReplyRemoved u) else Raise TelegramError), w')
        /\ stored (filter (fun e => negb (same_user u e)) accs) w'
        /\ saves w' = S (saves w)
        /\ (storage E (saves w) = IoOk ->
            disk w' = Some (json_dumps (PDict (config w'))))).
Proof.
  intros Hst u run.
  assert (Hrun : run
                 = if has_handle (str_lower u) accs
                   then (save_config E ;;
                         r <- reply_text (ReplyRemoved u) accepted ;;
                         log "Removed from monitoring" ;;
                         ret r) (store (filter (fun e => negb (same_user u e)) accs) w)
                   else reply_text (ReplyNotMonitored u) accepted
                                   (store (filter (fun e => negb (same_user u e)) accs) w)).
  { subst run u. unfold cmd_remove_account. cbv zeta.
    generalize (clean_username arg). intros u.
    unfold bind at 1. rewrite (remove_account_stored u accs w Hst). cbv zeta.
    rewrite filter_shorter, existsb_same_user.
    now destruct (has_handle (str_lower u) accs). }
  rewrite Hrun. clear Hrun run. generalize u. clear u. intros u.
  split.
  - intros Hnin.
    assert (Hh : has_handle (str_lower u) accs = false).
    { destruct (has_handle (str_lower u) accs) eqn:H; auto.
      apply has_handle_In in H. contradiction. }
    rewrite Hh, (filter_none_same u accs Hh), (store_same _ _ Hst).
    apply reply_text_run.
  - intros Hin. apply has_handle_In in Hin. rewrite Hin.
    set (kept := filter (fun e => negb (same_user u e)) accs).
    set (w1 := store kept w).
    destruct (save_config_writes E w1) as [w2 [Hsave [Hc [Hs Hio]]]].
    unfold bind at 1. rewrite Hsave.
    unfold bind at 1. rewrite reply_text_run.
    assert (Hst2 : stored kept w2).
    { eapply stored_config; [exact Hc | apply stored_store]. }
    assert (Hdisk : storage E (saves w) = IoOk ->
                    disk w2 = Some (json_dumps (PDict (config w2)))).
    { intros Hok. rewrite Hc. apply Hio. exact Hok. }
    destruct accepted.
    + eexists. split; [reflexivity |]. simpl. auto.
    + exists w2. auto.
Qed.

Lemma cmd_remove_account_removes_witness :
  stored [bob] bob_world
  /\ cmd_remove_account quiet_env ["alice"] true bob_world
     = (Ok (ReplyNotMonitored "alice"), bob_world)
  /\ exists w',
       cmd_remove_account quiet_env ["@bob"] true bob_world
       = (Ok (ReplyRemoved "bob"), w')
       /\ stored [] w'.
Proof.
  split; [reflexivity |].
  destruct (cmd_remove_account_removes quiet_env [bob] bob_world "alice" [] true
              eq_refl) as [Hnone _].
  destruct (cmd_remove_account_removes quiet_env [bob] bob_world "@bob" [] true
              eq_refl) as [_ Hsome].
  split.
  - apply Hnone. intros [H | []]. discriminate.
  - destruct Hsome as [w' [Hrun [Hst _]]]; [now left |].
    exists w'. split; [exact Hrun | exact Hst].
Defined.

(** * The username of a command *)

Lemma has_char_remove c s : has_char c (str_remove c s) = false.
Proof.
  induction s as [|x r IH]; simpl; auto.
  destruct (Ascii.eqb x c) eqn:Hx; simpl; auto. now rewrite Hx.
Qed.

Lemma str_remove_absent c s : has_char c s = false -> str_remove c s = s.
Proof.
  induction s as [|x r IH]; simpl; auto.
  destruct (Ascii.eqb x c); simpl; [discriminate |].
  intros H. now rewrite IH.
Qed.

Lemma str_remove_app c a b :
  str_remove c (a ++ b)%string = (str_remove c a ++ str_remove c b)%string.
Proof.
  induction a as [|x r IH]; simpl; auto.
  destruct (Ascii.eqb x c); simpl; now rewrite IH.
Qed.

Lemma has_char_lstrip c s : has_char c s = false -> has_char c (str_lstrip s) = false.
Proof.
  induction s as [|x r IH]; simpl; auto.
  destruct (is_whitespace x); simpl; auto.
  intros H. apply IH. now apply orb_false_iff in H.
Qed.

Lemma has_char_rstrip c s : has_char c s = false -> has_char c (str_rstrip s) = false.
Proof.
  induction s as [|x r IH]; simpl; auto.
  intros H. apply orb_false_iff in H. destruct H as [Hx Hr].
  specialize (IH Hr).
  destruct (str_rstrip r) as [|y t].
  - destruct (is_whitespace x); simpl; auto. now rewrite Hx.
  - simpl in *. now rewrite Hx, IH.
Qed.

Lemma starts_white_lstrip s : starts_white (str_lstrip s) = false.
Proof.
  induction s as [|x r IH]; simpl; auto.
  destruct (is_whitespace x) eqn:Hx; simpl; auto.
Qed.

Lemma str_lstrip_fixed s : starts_white s = false -> str_lstrip s = s.
Proof. destruct s as [|x r]; simpl; auto. now intros ->. Qed.

Lemma starts_white_rstrip s : starts_white s = false -> starts_white (str_rstrip s) = false.
Proof.
  destruct s as [|x r]; simpl; auto. intros Hx.
  destruct (str_rstrip r); [rewrite Hx |]; simpl; auto.
Qed.

Lemma ends_white_rstrip s : ends_white (str_rstrip s) = false.
Proof.
  induction s as [|x r IH]; simpl; auto.
  destruct (str_rstrip r) as [|y t].
  - destruct (is_whitespace x) eqn:Hx; simpl; auto.
  - exact IH.
Qed.

Lemma str_rstrip_fixed s : ends_white s = false -> str_rstrip s = s.
Proof.
  induction s as [|x r IH]; simpl; auto.
  destruct r as [|y t].
  - simpl. now intros ->.
  - intros H. rewrite (IH H). reflexivity.
Qed.

Lemma str_strip_fixed s :
  starts_white s = false -> ends_white s = false -> str_strip s = s.
Proof.
  intros Hl Hr. unfold str_strip. rewrite (str_lstrip_fixed s Hl).
  now apply str_rstrip_fixed.
Qed.

(** X20: the username that [/add] and [/remove] work with holds no ["@"]
    and neither starts nor ends with white space, and cleaning it again
    changes nothing; an ["@"] anywhere in the argument is dropped, so that
    the argument without it names the same account. *)
Theorem clean_username_clean (arg a b : string) :
  let u := clean_username arg in
  has_char "@"%char u = false
  /\ starts_white u = false /\ ends_white u = false
  /\ clean_username u = u
  /\ clean_username (a ++ "@" ++ b)%string = clean_username (a ++ b)%string.
Proof.
  intros u.
  assert (Hat : has_char "@"%char u = false).
  { apply has_char_rstrip, has_char_lstrip, has_char_remove. }
  assert (Hl : starts_white u = false).
  { apply starts_white_rstrip, starts_white_lstrip. }
  assert (Hr : ends_white u = false) by apply ends_white_rstrip.
  repeat split; auto.
  - unfold clean_username. rewrite (str_remove_absent _ _ Hat).
    now apply str_strip_fixed.
  - unfold clean_username. now rewrite !str_remove_app.
Qed.

(** * The keys of the configuration *)

Lemma dict_get_set_some k k' v d :
  dict_get k d <> None -> dict_get k (dict_set k' v d) <> None.
Proof.
  intros H. destruct (String.eqb k k') eqn:Hk.
  - apply String.eqb_eq in Hk. subst k'. rewrite dict_get_set_eq. discriminate.
  - rewrite dict_get_set_ne; auto. intros ->. now rewrite String.eqb_refl in Hk.
Qed.

Lemma dict_get_merge_some k b : forall a,
  dict_get k a <> None -> dict_get k (dict_merge a b) <> None.
Proof.
  unfold dict_merge. induction b as [|[k0 v0] r IH]; intros a H; simpl; auto.
  apply IH. now apply dict_get_set_some.
Qed.

(** X21: whatever is found at the path of the configuration file, also a
    JSON object without the expected keys, the configuration that
    [ConfigManager.__init__] sets has both keys of the default one, so
    that reading [config["monitored_accounts"]] afterwards raises no
    [KeyError]. *)
Theorem ConfigManager_init_keys (f : file_state) (w : world) :
  exists c w',
    ConfigManager_init f w = (Ok tt, w')
    /\ config w' = c
    /\ (forall k, dict_get k default_config <> None -> dict_get k c <> None)
    /\ exists v, config_getitem "monitored_accounts" w' = (Ok v, w').
Proof.
  assert (Hload : exists c w1,
             _load_config f w = (Ok c, w1)
             /\ forall k, dict_get k default_config <> None -> dict_get k c <> None).
  { destruct f as [| | |v];
      [eexists; eexists; split; [reflexivity | auto] ..|].
    destruct v;
      (eexists; eexists; split; [reflexivity |]); auto.
    intros k. apply dict_get_merge_some. }
  destruct Hload as [c [w1 [Hrun Hkeys]]].
  exists c, (with_config c w1). unfold ConfigManager_init, bind. rewrite Hrun.
  split; [reflexivity |]. split; [reflexivity |]. split; [exact Hkeys |].
  unfold config_getitem, bind. simpl.
  destruct (dict_get "monitored_accounts" c) as [v|] eqn:Hv.
  - exists v. reflexivity.
  - exfalso. apply (Hkeys "monitored_accounts"); [discriminate | exact Hv].
Qed.
